(** * Clouds on Mars demo page: the numeric kernels and the view state of
    [src/App.tsx], embedded in Rocq.

    Number model.  A JavaScript [number] is modelled by a real number of the
    Standard Library: [Math.exp] is [exp], [Math.log] is [ln], [Math.floor]
    and [Math.ceil] are [Zfloor] and [Zceil] injected back into [R],
    [Math.max] and [Math.min] are [Rmax] and [Rmin].  Rounding of binary64
    arithmetic, NaN and the infinities are outside this model; the
    statements below are about the exact values of the expressions the code
    evaluates.  The model and the running code agree up to rounding as long
    as no intermediate result is infinite or NaN; the rates for which an
    iteration of [useCurve] stays clear of both are singled out by
    [in_range], and the statements on the range of the generated values
    are made for those rates.  Outside, the code is followed by a second
    embedding of [useCurve] in binary64 ([useCurve64]), which evaluates
    wherever the language fixes the result of [Math.exp].  A sum of decimal
    literals that a statement calls exact, and a comparison that decides a
    ranking at the first step of the noise slider, are evaluated in
    binary64 as well.

    Randomness.  [Math.random()] is an oracle [random : nat -> R] together
    with a counter of the calls made so far, threaded through every function
    that draws: the [i]-th call returns [random i].

    React.  [useState] cells are fields of a record per component,
    [useMemo] caches are fields recomputed when a dependency changes, event
    handlers are transitions on the record of the whole page. *)

From Equations Require Import Equations.
From Stdlib Require Import Reals Lra Lia List ZArith String Bool.
From Stdlib Require Import Sorting.Sorted Sorting.Permutation.
From Stdlib Require Floats.
Import ListNotations.
Open Scope string_scope.
Open Scope list_scope.
Open Scope R_scope.

(** ** The curve generator [useCurve] *)

Inductive Model : Type := Exp | Logistic.

Definition Model_eq_dec (a b : Model) : {a = b} + {a <> b}.
Proof. decide equality. Defined.

Record Point : Type := mkPoint { t : R; y : R; yLo : R; yHi : R }.

Section UseCurve.

Variable model : Model.
Variables k tMax noise : R.
Variable random : nat -> R.

(** [const step = Math.max(1, Math.floor(tMax / 60))] *)
Definition step : R := Rmax 1 (IZR (Zfloor (tMax / 60))).

(** [x0 = tMax * 0.25] and [s = Math.max(1e-3, 10 * k)], the constants
    of the logistic branch. *)
Definition logistic_x0 : R := tMax * 0.25.
Definition logistic_s : R := Rmax 1e-3 (10 * k).

(** The noise-free value of the selected model at time [t0]. *)
Definition ideal (t0 : R) : R :=
  match model with
  | Exp => exp (- k * t0)
  | Logistic =>
      let L := 1 in
      let x0 := logistic_x0 in
      let s := logistic_s in
      1 - L / (1 + exp (- s * (t0 - x0)))
  end.

(** [noise ? (Math.random() - 0.5) * 2 * noise * ideal : 0]; the oracle is
    consulted only when [noise] is truthy. *)
Definition eps (i : R) (n : nat) : R * nat :=
  if Req_dec_T noise 0 then (0, n)
  else ((random n - 0.5) * 2 * noise * i, S n).

(** One iteration of the loop body: the point pushed for time [t0]. *)
Definition body (t0 : R) (n : nat) : Point * nat :=
  let i := ideal t0 in
  let (e, n') := eps i n in
  let y0 := Rmax 0 (Rmin 1 (i + e)) in
  (mkPoint t0 y0 (Rmax 0 (y0 * 0.9)) (Rmin 1 (y0 * 1.1)), n').

(** [for (let t = 0; t <= tMax; t += step) { ...; pts.push(...) }] from an
    arbitrary current time; terminates because [step >= 1]. *)
Equations? curve_loop (t0 : R) (n : nat) : list Point * nat
  by wf (Z.to_nat (up (tMax - t0))) lt :=
  curve_loop t0 n with Rle_dec t0 tMax => {
    | left _ :=
        let (p, n1) := body t0 n in
        let (pts, n2) := curve_loop (t0 + step) n1 in
        (p :: pts, n2);
    | right _ := ([], n) }.
Proof.
  assert (Hs : 1 <= step) by apply Rmax_l.
  pose proof (archimed (tMax - t0)) as [A1 A2].
  pose proof (archimed (tMax - (t0 + step))) as [B1 B2].
  assert (up (tMax - (t0 + step)) < up (tMax - t0))%Z
    by (apply lt_IZR; lra).
  assert (0 < up (tMax - t0))%Z by (apply lt_IZR; lra).
  lia.
Qed.

Definition useCurve (n : nat) : list Point * nat := curve_loop 0 n.

End UseCurve.

(** ** [WeightLossProjection]: the horizon derived from the rate *)

(** [t90 = Math.log(10) / Math.max(1e-6, k)] *)
Definition t90 (k : R) : R := ln 10 / Rmax 1e-6 k.

(** [tMax = Math.ceil(t90 * 1.2)] *)
Definition WeightLossProjection_tMax (k : R) : R := IZR (Zceil (t90 k * 1.2)).

(** [data = useCurve(model, k, tMax, noise)] *)
Definition WeightLossProjection_data
    (random : nat -> R) (model : Model) (k noise : R) (n : nat)
    : list Point * nat :=
  useCurve model k (WeightLossProjection_tMax k) noise random n.

(** ** [Array.prototype.sort] with a comparator

    The sort of the language is stable, and with a consistent comparator its
    result is the one arrangement in which [compareFn a b <= 0] for every
    [a] placed before [b], ties in their original order.  Insertion from the
    right computes that arrangement.  The callers sort a copy
    ([[...features]]), so the function is pure. *)

Section JsSort.

Context {A : Type}.
Variable compareFn : A -> A -> R.

Fixpoint js_insert (x : A) (l : list A) : list A :=
  match l with
  | [] => [x]
  | x' :: l' =>
      if Rle_dec (compareFn x x') 0 then x :: l else x' :: js_insert x l'
  end.

Definition js_sort (l : list A) : list A := fold_right js_insert [] l.

End JsSort.

(** ** [DriversOfLiking] *)

(** The three chips of the component; [tp] never holds another key. *)
Inductive TimePoint : Type := Day1 | Day7 | Day14.

Definition TimePoint_eq_dec (a b : TimePoint) : {a = b} + {a <> b}.
Proof. decide equality. Defined.

Definition label (tp : TimePoint) : string :=
  match tp with
  | Day1 => "Day 1"
  | Day7 => "Day 7"
  | Day14 => "Day 14"
  end.

(** An object literal is the list of its entries in insertion order, which
    is the order [Object.entries] enumerates. *)
Definition SAMPLE_FEATURES : list (string * list (string * R)) :=
  [ ("Day 1",
      [ ("Freshness", 0.24); ("Sillage", 0.18); ("Longevity", 0.12);
        ("Price", 0.06); ("Brand", 0.05); ("Eco Score", 0.08);
        ("Package", 0.10); ("Texture", 0.17) ]);
    ("Day 7",
      [ ("Freshness", 0.18); ("Sillage", 0.22); ("Longevity", 0.16);
        ("Price", 0.05); ("Brand", 0.04); ("Eco Score", 0.09);
        ("Package", 0.08); ("Texture", 0.18) ]);
    ("Day 14",
      [ ("Freshness", 0.15); ("Sillage", 0.25); ("Longevity", 0.19);
        ("Price", 0.04); ("Brand", 0.03); ("Eco Score", 0.10);
        ("Package", 0.07); ("Texture", 0.17) ]) ].

Fixpoint get {V : Type} (key : string) (obj : list (string * V)) : option V :=
  match obj with
  | [] => None
  | (k', v) :: obj' => if String.eqb key k' then Some v else get key obj'
  end.

(** [SAMPLE_FEATURES[tp]]; the three labels are keys of the table, so the
    empty default is never taken. *)
Definition base (tp : TimePoint) : list (string * R) :=
  match get (label tp) SAMPLE_FEATURES with
  | Some b => b
  | None => []
  end.

Record Feature : Type := mkFeature { name : string; value : R }.

(** The feature an entry [[k, v]] of the table yields when its weight is
    left as it is. *)
Definition as_feature (e : string * R) : Feature := mkFeature (fst e) (snd e).

Section Drivers.

Variable random : nat -> R.

(** [Object.entries(base).map(([k, v]) => ({ name: k, value:
    Math.max(0, v + (Math.random() - 0.5) * 2 * noise) }))]: one call of
    the oracle per entry, whatever [noise] is. *)
Fixpoint perturb (noise : R) (entries : list (string * R)) (n : nat)
  : list Feature * nat :=
  match entries with
  | [] => ([], n)
  | (k, v) :: entries' =>
      let f := mkFeature k (Rmax 0 (v + (random n - 0.5) * 2 * noise)) in
      let (fs, n') := perturb noise entries' (S n) in
      (f :: fs, n')
  end.

Definition features (tp : TimePoint) (noise : R) (n : nat)
  : list Feature * nat :=
  perturb noise (base tp) n.

End Drivers.

(** [(a, b) => b.value - a.value] and [(a, b) => b[1] - a[1]] *)
Definition by_value_desc (a b : Feature) : R := value b - value a.
Definition by_weight_desc (a b : string * R) : R := snd b - snd a.

(** [sorted = [...features].sort((a, b) => b.value - a.value)] *)
Definition sorted (fs : list Feature) : list Feature := js_sort by_value_desc fs.

(** [for (let i = 0; i < order.length; i++) if (order[i] === ref[i])
    matches++]; past the end of [ref] the comparison is with [undefined]
    and fails. *)
Fixpoint count_matches (order ref : list string) : nat :=
  match order with
  | [] => O
  | o :: order' =>
      (match ref with
       | r :: _ => if String.eqb o r then 1%nat else 0%nat
       | [] => 0%nat
       end + count_matches order' (tl ref))%nat
  end.

Definition stability (fs : list Feature) (noise : R) : R :=
  let ref := map fst (js_sort by_weight_desc (base Day1)) in
  let order := map name (js_sort by_value_desc fs) in
  let matches := count_matches order ref in
  (INR matches / INR (List.length order)) * 0.3 + 0.7 - noise * 0.5.

(** The number shown under "Stability": [Math.max(0.5, Math.min(1,
    stability))], before [toFixed(2)] formats it. *)
Definition stability_shown (fs : list Feature) (noise : R) : R :=
  Rmax 0.5 (Rmin 1 (stability fs noise)).

(** [sorted[0]?.name] *)
Definition top_driver (fs : list Feature) : option string :=
  option_map name (hd_error (sorted fs)).

(** ** [Toggle], [Chip], [CapabilityRow], [AzureComparison], [Timeline] *)

(** [onClick={() => onChange(!checked)}] *)
Definition Toggle {S : Type} (checked : bool) (onChange : bool -> S -> S)
  : S -> S :=
  onChange (negb checked).

(** [onClick={onClick}]; a chip without a handler does nothing. *)
Definition Chip {S : Type} (onClick : option (S -> S)) : S -> S :=
  match onClick with
  | Some h => h
  | None => fun s => s
  end.

Record Capability : Type :=
  mkCapability { cap_name : string; classic : bool; fabric : bool }.

(** What a [CapabilityRow] shows: the name and the two cells, each with the
    flag that selects its style and its text. *)
Record Cell : Type := mkCell { lit : bool; text : string }.
Record RowView : Type :=
  mkRowView { row_name : string; classic_cell : Cell; fabric_cell : Cell }.

(** [{flag ? "Yes" : "—"}] *)
Definition cell (flag : bool) : Cell :=
  mkCell flag (if flag then "Yes" else "—").

Definition CapabilityRow (name0 : string) (classic0 fabric0 : bool) : RowView :=
  mkRowView name0 (cell classic0) (cell fabric0).

Definition rows : list Capability :=
  [ mkCapability "OneLake (unified storage)" false true;
    mkCapability "Delta / Lakehouse" true true;
    mkCapability "Pipelines / ADF" true true;
    mkCapability "AutoML / MLflow" true true;
    mkCapability "Real‑Time Intelligence (KQL)" false true;
    mkCapability "Embedded Analytics (PBI)" true true;
    mkCapability "Shortcuts (no-copy links)" false true;
    mkCapability "MLOps registry" true true ].

(** [rows.map((r) => <CapabilityRow name={r.name} classic={r.classic}
    fabric={showFabric ? r.fabric : false} />)], over any table of rows. *)
Definition render_rows (showFabric : bool) (rs : list Capability)
  : list RowView :=
  map (fun r =>
         CapabilityRow (cap_name r) (classic r)
           (if showFabric then fabric r else false)) rs.

Definition AzureComparison (showFabric : bool) : list RowView :=
  render_rows showFabric rows.

(** [setOpenIdx(openIdx === i ? null : i)] *)
Definition toggle_milestone (openIdx : option nat) (i : nat) : option nat :=
  match openIdx with
  | Some j => if Nat.eqb j i then None else Some i
  | None => Some i
  end.

(** ** The page: local state of every component, and the event handlers *)

Record WeightLossState : Type := mkWeightLoss {
  wl_k : R;                      (* useState(0.03) *)
  wl_noise : R;                  (* useState(0.02) *)
  wl_model : Model;              (* useState("exp") *)
  wl_data : list Point;          (* the useMemo cache inside useCurve *)
  wl_pin : option (R * R)        (* InteractiveArea: useState(null) *)
}.

Record DriversState : Type := mkDrivers {
  dl_tp : TimePoint;             (* useState("Day 1") *)
  dl_noise : R;                  (* useState(0) *)
  dl_selected : option string;   (* useState(null) *)
  dl_features : list Feature     (* useMemo(..., [tp, noise]) *)
}.

Record AzureState : Type := mkAzure { showFabric : bool }.   (* useState(true) *)

Record TimelineState : Type := mkTimeline { openIdx : option nat }.  (* useState(0) *)

Record Page : Type := mkPage {
  pauseAnim : bool;              (* App: useState(false) *)
  weightLoss : WeightLossState;
  drivers : DriversState;
  azure : AzureState;
  timeline : TimelineState;
  randomCalls : nat              (* calls of Math.random() made so far *)
}.

Inductive Event : Type :=
| ClickModelChip (m : Model)         (* Chip: setModel(m) *)
| SlideRate (v : R)                  (* range input: setK *)
| SlideCurveNoise (v : R)            (* range input: setNoise *)
| ClickChart (at_t at_y : R)         (* AreaChart onClick: setPin *)
| ClickDayChip (d : TimePoint)       (* Chip: setTp(d) *)
| SlideDriversNoise (v : R)          (* range input: setNoise *)
| ClickBar (idx : nat)               (* Bar onClick: setSelected(sorted[idx].name) *)
| CloseModal                         (* DriverModal onClose: setSelected(null) *)
| ClickShowFabric                    (* Toggle: setShowFabric(!showFabric) *)
| ClickMilestone (i : nat)           (* setOpenIdx(openIdx === i ? null : i) *)
| ClickBackground.                   (* setPauseAnim((p) => !p) *)

Section PageSemantics.

Variable random : nat -> R.

(** A render of [WeightLossProjection] after its state became
    [(k, noise, model)]: the memo of [useCurve] is recomputed, drawing
    from the oracle. *)
Definition rerender_weightLoss (k noise : R) (model : Model)
    (pin : option (R * R)) (n : nat) : WeightLossState * nat :=
  let (data, n') := WeightLossProjection_data random model k noise n in
  (mkWeightLoss k noise model data pin, n').

Definition rerender_drivers (tp : TimePoint) (noise : R)
    (selected : option string) (n : nat) : DriversState * nat :=
  let (fs, n') := features random tp noise n in
  (mkDrivers tp noise selected fs, n').

(** The state of the page when it is first shown. *)
Definition mount (n : nat) : Page :=
  let (wl, n1) := rerender_weightLoss 0.03 0.02 Exp None n in
  let (dl, n2) := rerender_drivers Day1 0 None n1 in
  mkPage false wl dl (mkAzure true) (mkTimeline (Some O)) n2.

Definition set_weightLoss (p : Page) (r : WeightLossState * nat) : Page :=
  mkPage (pauseAnim p) (fst r) (drivers p) (azure p) (timeline p) (snd r).

Definition set_drivers (p : Page) (r : DriversState * nat) : Page :=
  mkPage (pauseAnim p) (weightLoss p) (fst r) (azure p) (timeline p) (snd r).

Definition setShowFabric (v : bool) (p : Page) : Page :=
  mkPage (pauseAnim p) (weightLoss p) (drivers p) (mkAzure v)
    (timeline p) (randomCalls p).

(** A setter called with the value the cell already holds leaves the
    component alone: no render, the memo keeps its value. *)
Definition setModel (m : Model) (p : Page) : Page :=
  let wl := weightLoss p in
  if Model_eq_dec m (wl_model wl) then p
  else set_weightLoss p
         (rerender_weightLoss (wl_k wl) (wl_noise wl) m (wl_pin wl)
            (randomCalls p)).

Definition setK (v : R) (p : Page) : Page :=
  let wl := weightLoss p in
  if Req_dec_T v (wl_k wl) then p
  else set_weightLoss p
         (rerender_weightLoss v (wl_noise wl) (wl_model wl) (wl_pin wl)
            (randomCalls p)).

Definition setCurveNoise (v : R) (p : Page) : Page :=
  let wl := weightLoss p in
  if Req_dec_T v (wl_noise wl) then p
  else set_weightLoss p
         (rerender_weightLoss (wl_k wl) v (wl_model wl) (wl_pin wl)
            (randomCalls p)).

(** [setPin] re-renders [InteractiveArea] only; its [data] prop is the
    same array, and the memo of the parent is not touched. *)
Definition setPin (v : option (R * R)) (p : Page) : Page :=
  let wl := weightLoss p in
  mkPage (pauseAnim p)
    (mkWeightLoss (wl_k wl) (wl_noise wl) (wl_model wl) (wl_data wl) v)
    (drivers p) (azure p) (timeline p) (randomCalls p).

Definition setTp (d : TimePoint) (p : Page) : Page :=
  let dl := drivers p in
  if TimePoint_eq_dec d (dl_tp dl) then p
  else set_drivers p
         (rerender_drivers d (dl_noise dl) (dl_selected dl) (randomCalls p)).

Definition setDriversNoise (v : R) (p : Page) : Page :=
  let dl := drivers p in
  if Req_dec_T v (dl_noise dl) then p
  else set_drivers p
         (rerender_drivers (dl_tp dl) v (dl_selected dl) (randomCalls p)).

(** [selected] is not a dependency of the [features] memo. *)
Definition setSelected (v : option string) (p : Page) : Page :=
  let dl := drivers p in
  mkPage (pauseAnim p) (weightLoss p)
    (mkDrivers (dl_tp dl) (dl_noise dl) v (dl_features dl))
    (azure p) (timeline p) (randomCalls p).

Definition handle (e : Event) (p : Page) : Page :=
  match e with
  | ClickModelChip m => Chip (Some (setModel m)) p
  | SlideRate v => setK v p
  | SlideCurveNoise v => setCurveNoise v p
  | ClickChart at_t at_y => setPin (Some (at_t, at_y)) p
  | ClickDayChip d => Chip (Some (setTp d)) p
  | SlideDriversNoise v => setDriversNoise v p
  | ClickBar idx =>
      match nth_error (sorted (dl_features (drivers p))) idx with
      | Some f => setSelected (Some (name f)) p
      | None => p
      end
  | CloseModal => setSelected None p
  | ClickShowFabric => Toggle (showFabric (azure p)) setShowFabric p
  | ClickMilestone i =>
      mkPage (pauseAnim p) (weightLoss p) (drivers p) (azure p)
        (mkTimeline (toggle_milestone (openIdx (timeline p)) i))
        (randomCalls p)
  | ClickBackground =>
      mkPage (negb (pauseAnim p)) (weightLoss p) (drivers p) (azure p)
        (timeline p) (randomCalls p)
  end.

(** A session: the events of the user, in order. *)
Definition run (es : list Event) (p : Page) : Page :=
  fold_left (fun q e => handle e q) es p.

End PageSemantics.

(** The fragment whose state an event may change. *)
Inductive Fragment : Type :=
| InApp | InWeightLoss | InDrivers | InAzure | InTimeline.

Definition owner (e : Event) : Fragment :=
  match e with
  | ClickModelChip _ | SlideRate _ | SlideCurveNoise _ | ClickChart _ _ =>
      InWeightLoss
  | ClickDayChip _ | SlideDriversNoise _ | ClickBar _ | CloseModal =>
      InDrivers
  | ClickShowFabric => InAzure
  | ClickMilestone _ => InTimeline
  | ClickBackground => InApp
  end.

(** The local state of fragment [f] is the same on two pages. *)
Definition agree_on (f : Fragment) (p p' : Page) : Prop :=
  match f with
  | InApp => pauseAnim p' = pauseAnim p
  | InWeightLoss => weightLoss p' = weightLoss p
  | InDrivers => drivers p' = drivers p
  | InAzure => azure p' = azure p
  | InTimeline => timeline p' = timeline p
  end.

(** ** Fixed-point enclosures of [exp], for the numeric scenario

    [exp (p / q)] is enclosed by squaring [m] times an enclosure of
    [exp (p / (q * 2 ^ m))], in integers scaled by [scale], each square
    rounded down for the lower end and up for the upper end. *)

Definition scale : Z := 1000000000000000000.
Definition sq_down (a : Z) : Z := (a * a / scale)%Z.
Definition sq_up (a : Z) : Z := (a * a / scale + 1)%Z.

Definition exp_below (p q : Z) (m : nat) : Z :=
  Nat.iter m sq_down
    (scale * (q * 2 ^ Z.of_nat m + p) / (q * 2 ^ Z.of_nat m))%Z.

Definition exp_above (p q : Z) (m : nat) : Z :=
  Nat.iter m sq_up
    (scale * (q * 2 ^ Z.of_nat m) / (q * 2 ^ Z.of_nat m - p) + 1)%Z.

(** ** Further views: [DriverModal], [MILESTONES], [Timeline] *)

(** The number of calls of the oracle one iteration of [useCurve] makes. *)
Definition draws_per_point (noise : R) : nat :=
  if Req_dec_T noise 0 then 0%nat else 1%nat.

(** [{name && (...)}]: the dialog is rendered for a name that is neither
    [null] nor empty, and shows that name. *)
Definition DriverModal (name0 : option string) : option string :=
  match name0 with
  | Some s => if String.eqb s "" then None else Some s
  | None => None
  end.

Record Milestone : Type :=
  mkMilestone { title : string; weeks : nat; desc : string }.

Definition MILESTONES : list Milestone :=
  [ mkMilestone "Kick‑off & Discovery" 2
      "Stakeholders, scope, success criteria, tenant prep";
    mkMilestone "Data Engineering" 5
      "Ingest, Lakehouse model, bronze→silver→gold";
    mkMilestone "Orchestration & QA" 3
      "Pipelines, tests, parity harness, monitoring";
    mkMilestone "Weight Loss App" 3 "Feature complete + usability pass";
    mkMilestone "DOL App" 3 "Explainability, SHAP stability ≥0.7";
    mkMilestone "Governance & Handover" 2 "Docs, runbooks, enablement" ].

(** What a card of the timeline shows: title, weeks, and the description
    when [openIdx === i]. *)
Record Card : Type :=
  mkCard { card_title : string; card_weeks : nat; card_desc : option string }.

Definition is_open (openIdx : option nat) (i : nat) : bool :=
  match openIdx with
  | Some j => Nat.eqb j i
  | None => false
  end.

(** [MILESTONES.map((m, i) => ...)], from index [i] on. *)
Fixpoint cards_from (i : nat) (ms : list Milestone) (openIdx : option nat)
  : list Card :=
  match ms with
  | [] => []
  | m :: ms' =>
      mkCard (title m) (weeks m)
        (if is_open openIdx i then Some (desc m) else None)
      :: cards_from (S i) ms' openIdx
  end.

Definition Timeline (openIdx : option nat) : list Card :=
  cards_from 0 MILESTONES openIdx.

(** The events the page can deliver: a bar or a milestone is clicked at an
    index that exists. *)
Definition deliverable (e : Event) : Prop :=
  match e with
  | ClickBar idx => (idx < 8)%nat
  | ClickMilestone i => (i < List.length MILESTONES)%nat
  | _ => True
  end.

(** The caches of a page hold what their computations return for the state
    the page is in, from some position of the oracle. *)
Definition coherent (random : nat -> R) (p : Page) : Prop :=
  (exists n,
     wl_data (weightLoss p) =
     fst (WeightLossProjection_data random (wl_model (weightLoss p))
            (wl_k (weightLoss p)) (wl_noise (weightLoss p)) n)) /\
  (exists n,
     dl_features (drivers p) =
     fst (features random (dl_tp (drivers p)) (dl_noise (drivers p)) n)).

(** A card that shows its description. *)
Definition expanded (c : Card) : bool :=
  match card_desc c with
  | Some _ => true
  | None => false
  end.

(** The keys of each of the three tables of [SAMPLE_FEATURES], in order. *)
Definition names8 : list string :=
  [ "Freshness"; "Sillage"; "Longevity"; "Price"; "Brand"; "Eco Score";
    "Package"; "Texture" ].

(** The selection is absent or names a feature. *)
Definition selection_ok (p : Page) : Prop :=
  match dl_selected (drivers p) with
  | Some s => In s names8
  | None => True
  end.

(** ** The range of rates, and the generator in binary64 *)

(** The rates for which no intermediate result of an iteration of
    [useCurve] is infinite or NaN in binary64: for the exponential model
    [exp (- k * t)] must not overflow while a noise term is added to it, for
    the logistic model [10 * k] must not overflow. *)
Definition in_range (model : Model) (k noise : R) : Prop :=
  match model with
  | Exp => 0 <= k \/ noise = 0
  | Logistic => k <= 1e307
  end.

Section Binary64Model.

Import Stdlib.Floats.PrimFloat.
Local Open Scope float_scope.

(** [Math.max] and [Math.min]: NaN if an argument is NaN, and [-0] below
    [+0]. *)
Definition Math_max64 (a b : float) : float :=
  if (is_nan a || is_nan b)%bool then nan
  else if a <? b then b
  else if b <? a then a
  else if (is_zero a && get_sign a)%bool then b else a.

Definition Math_min64 (a b : float) : float :=
  if (is_nan a || is_nan b)%bool then nan
  else if a <? b then a
  else if b <? a then b
  else if (is_zero a && get_sign a)%bool then a else b.

Definition two52 : float := 4503599627370496.

(** [Math.floor]: NaN, the zeros and every number of magnitude 2^52 or more
    are their own floor; below, adding and removing 2^52 rounds to a
    neighbouring whole number, which is lowered by 1 if it exceeds [x]. *)
Definition Math_floor64 (x : float) : float :=
  if (is_nan x || is_zero x || (two52 <=? abs x))%bool then x
  else
    let r := if 0 <? x then (x + two52) - two52 else (x - two52) + two52 in
    if x <? r then r - 1 else r.

(** [Math.exp], where the language fixes its result: NaN for NaN, [+inf]
    for [+inf], [+0] for [-inf], 1 for either zero.  Elsewhere the result is
    an approximation the language leaves to the engine, and is not
    modelled. *)
Definition Math_exp64 (x : float) : option float :=
  if is_nan x then Some nan
  else if x =? infinity then Some infinity
  else if x =? neg_infinity then Some 0
  else if is_zero x then Some 1
  else None.

(** A number is truthy unless it is NaN or a zero. *)
Definition truthy64 (x : float) : bool := negb (is_nan x || is_zero x).

Record Point64 : Type :=
  mkPoint64 { t64 : float; y64 : float; yLo64 : float; yHi64 : float }.

Variable model : Model.
Variables k tMax noise : float.
Variable random64 : nat -> float.

Definition step64 : float := Math_max64 1 (Math_floor64 (tMax / 60)).
Definition logistic_s64 : float := Math_max64 1e-3 (10 * k).

Definition ideal64 (t0 : float) : option float :=
  match model with
  | Exp => Math_exp64 (- k * t0)
  | Logistic =>
      let L := 1 in
      let x0 := tMax * 0.25 in
      let s := logistic_s64 in
      match Math_exp64 (- s * (t0 - x0)) with
      | Some e => Some (1 - L / (1 + e))
      | None => None
      end
  end.

Definition body64 (t0 : float) (n : nat) : option (Point64 * nat) :=
  match ideal64 t0 with
  | Some i =>
      let (e, n') :=
        if truthy64 noise then ((random64 n - 0.5) * 2 * noise * i, S n)
        else (0, n) in
      let y0 := Math_max64 0 (Math_min64 1 (i + e)) in
      Some (mkPoint64 t0 y0 (Math_max64 0 (y0 * 0.9))
              (Math_min64 1 (y0 * 1.1)), n')
  | None => None
  end.

(** The loop, with a bound on the number of iterations; [None] when the
    bound is reached or a value of [Math.exp] is not fixed by the
    language. *)
Fixpoint curve_loop64 (fuel : nat) (t0 : float) (n : nat)
  : option (list Point64 * nat) :=
  match fuel with
  | O => None
  | S fuel' =>
      if t0 <=? tMax then
        match body64 t0 n with
        | Some (p, n1) =>
            match curve_loop64 fuel' (t0 + step64) n1 with
            | Some (pts, n2) => Some (p :: pts, n2)
            | None => None
            end
        | None => None
        end
      else Some ([], n)
  end.

Definition useCurve64 (fuel n : nat) : option (list Point64 * nat) :=
  curve_loop64 fuel 0 n.

End Binary64Model.

(** * Properties *)

(** ** The loop of [useCurve] *)

Section UseCurveFacts.

Variable model : Model.
Variables k tMax noise : R.
Variable random : nat -> R.

Local Abbreviation loop := (curve_loop model k tMax noise random).
Local Abbreviation body' := (body model k tMax noise random).
Local Abbreviation step' := (step tMax).

Lemma step_ge_1 : 1 <= step'.
Proof. apply Rmax_l. Qed.

Lemma curve_loop_in (t0 : R) (n : nat) :
  t0 <= tMax ->
  loop t0 n =
    (fst (body' t0 n) :: fst (loop (t0 + step') (snd (body' t0 n))),
     snd (loop (t0 + step') (snd (body' t0 n)))).
Proof.
  intros Hle. rewrite curve_loop_equation_1.
  unfold curve_loop_unfold_clause_1.
  destruct (Rle_dec t0 tMax) as [_|Hn]; [|contradiction].
  destruct (body' t0 n) as [p n1]. simpl.
  destruct (loop (t0 + step') n1) as [pts n2]. reflexivity.
Qed.

Lemma curve_loop_out (t0 : R) (n : nat) :
  tMax < t0 -> loop t0 n = ([], n).
Proof.
  intros Hlt. rewrite curve_loop_equation_1.
  unfold curve_loop_unfold_clause_1.
  destruct (Rle_dec t0 tMax) as [Hle|_]; [lra|reflexivity].
Qed.

(** Induction along the iterations of the loop. *)
Lemma curve_loop_ind (P : R -> nat -> list Point * nat -> Prop) :
  (forall t0 n, tMax < t0 -> P t0 n ([], n)) ->
  (forall t0 n, t0 <= tMax ->
     P (t0 + step') (snd (body' t0 n))
       (loop (t0 + step') (snd (body' t0 n))) ->
     P t0 n (fst (body' t0 n) :: fst (loop (t0 + step') (snd (body' t0 n))),
             snd (loop (t0 + step') (snd (body' t0 n))))) ->
  forall t0 n, P t0 n (loop t0 n).
Proof.
  intros Hout Hin t0.
  remember (Z.to_nat (up (tMax - t0))) as m eqn:Hm.
  revert t0 Hm. induction m as [m IH] using lt_wf_ind. intros t0 Hm n.
  destruct (Rle_dec t0 tMax) as [Hle|Hgt].
  - rewrite (curve_loop_in _ _ Hle). apply Hin; [exact Hle|].
    apply (IH (Z.to_nat (up (tMax - (t0 + step'))))); [|reflexivity].
    subst m.
    pose proof step_ge_1 as Hs.
    pose proof (archimed (tMax - t0)) as [A1 A2].
    pose proof (archimed (tMax - (t0 + step'))) as [B1 B2].
    assert (up (tMax - (t0 + step')) < up (tMax - t0))%Z
      by (apply lt_IZR; lra).
    assert (0 < up (tMax - t0))%Z by (apply lt_IZR; lra).
    lia.
  - rewrite curve_loop_out by lra. apply Hout. lra.
Qed.

Lemma body_t (t0 : R) (n : nat) : t (fst (body' t0 n)) = t0.
Proof. unfold body. destruct (eps _ _ _ _) as [e n']. reflexivity. Qed.

Lemma body_y_range (t0 : R) (n : nat) : 0 <= y (fst (body' t0 n)) <= 1.
Proof.
  unfold body. destruct (eps _ _ _ _) as [e n']. simpl. split.
  - apply Rmax_l.
  - apply Rmax_lub; [lra | apply Rmin_l].
Qed.

Lemma body_bounds (t0 : R) (n : nat) :
  yLo (fst (body' t0 n)) = Rmax 0 (y (fst (body' t0 n)) * 0.9) /\
  yHi (fst (body' t0 n)) = Rmin 1 (y (fst (body' t0 n)) * 1.1).
Proof. unfold body. destruct (eps _ _ _ _) as [e n']. simpl. auto. Qed.

(** Every point of the result was pushed by an iteration whose time lies
    between the start and the horizon. *)
Lemma curve_loop_Forall (P : Point -> Prop) (t0 : R) (n : nat) :
  (forall t1 m, t0 <= t1 <= tMax -> P (fst (body' t1 m))) ->
  Forall P (fst (loop t0 n)).
Proof.
  revert t0 n.
  apply (curve_loop_ind
           (fun t0 n r =>
              (forall t1 m, t0 <= t1 <= tMax -> P (fst (body' t1 m))) ->
              Forall P (fst r))).
  - intros; constructor.
  - intros t0 n Hle IH HP. simpl. constructor.
    + apply HP. lra.
    + apply IH. intros t1 m Ht1. apply HP.
      pose proof step_ge_1. lra.
Qed.

(** The times of the points increase strictly along the result. *)
Lemma curve_loop_times_sorted (t0 : R) (n : nat) :
  StronglySorted (fun p q => t p < t q) (fst (loop t0 n)).
Proof.
  revert t0 n.
  apply (curve_loop_ind
           (fun t0 n r => StronglySorted (fun p q => t p < t q) (fst r))).
  - intros; constructor.
  - intros t0 n Hle IH. simpl. constructor; [exact IH|].
    apply curve_loop_Forall. intros t1 m Ht1.
    rewrite !body_t. pose proof step_ge_1. lra.
Qed.

Lemma useCurve_head (n : nat) :
  0 <= tMax ->
  exists rest,
    fst (useCurve model k tMax noise random n) = fst (body' 0 n) :: rest.
Proof.
  intros H0. unfold useCurve. rewrite curve_loop_in by exact H0.
  simpl. eexists. reflexivity.
Qed.

(** Without noise the oracle is not consulted. *)
Lemma body_noiseless (t0 : R) (n : nat) :
  noise = 0 ->
  body' t0 n =
    (let y0 := Rmax 0 (Rmin 1 (ideal model k tMax t0)) in
     mkPoint t0 y0 (Rmax 0 (y0 * 0.9)) (Rmin 1 (y0 * 1.1)), n).
Proof.
  intros Hn. unfold body, eps.
  destruct (Req_dec_T noise 0) as [_|Hne]; [|contradiction].
  rewrite Rplus_0_r. reflexivity.
Qed.

(** The [j]-th point of a noise-free curve. *)
Lemma curve_loop_nth (j : nat) :
  noise = 0 ->
  forall t0 n,
    t0 + INR j * step' <= tMax ->
    nth_error (fst (loop t0 n)) j = Some (fst (body' (t0 + INR j * step') n)).
Proof.
  intros Hn. induction j as [|j IH]; intros t0 n Hle.
  - simpl in Hle. rewrite curve_loop_in by lra. simpl.
    replace (t0 + 0 * step') with t0 by lra. reflexivity.
  - pose proof step_ge_1 as Hs. pose proof (pos_INR j) as Hj.
    rewrite S_INR in Hle.
    rewrite curve_loop_in by nra. cbn [fst nth_error].
    rewrite (body_noiseless t0 n Hn). cbn [snd].
    rewrite IH by lra. rewrite S_INR.
    replace (t0 + (INR j + 1) * step') with (t0 + step' + INR j * step')
      by lra.
    reflexivity.
Qed.

End UseCurveFacts.

(** ** Facts on [exp] and [ln] used below *)

Lemma exp_le_mono (a b : R) : a <= b -> exp a <= exp b.
Proof.
  intros [Hlt|Heq].
  - left. apply exp_increasing. exact Hlt.
  - subst. right. reflexivity.
Qed.

Lemma exp_le_1 (a : R) : a <= 0 -> exp a <= 1.
Proof. intros Ha. rewrite <- exp_0. apply exp_le_mono. exact Ha. Qed.

Lemma ln_10_gt_1 : 1 < ln 10.
Proof.
  rewrite <- (ln_exp 1). apply ln_increasing; [apply exp_pos|].
  pose proof exp_le_3. lra.
Qed.

Lemma exp_opp_ln_10 : exp (- ln 10) = 0.1.
Proof. rewrite exp_Ropp, exp_ln by lra. lra. Qed.

Lemma Rabs_le_between (a b : R) : Rabs a <= b -> - b <= a <= b.
Proof. unfold Rabs. destruct (Rcase_abs a); lra. Qed.

Lemma StronglySorted_transport {A : Type} (R1 R2 : A -> A -> Prop)
    (Q : A -> Prop) (l : list A) :
  (forall a b, Q a -> Q b -> R1 a b -> R2 a b) ->
  Forall Q l -> StronglySorted R1 l -> StronglySorted R2 l.
Proof.
  intros Himp HQ HS. induction HS as [|a l HS IH Ha]; [constructor|].
  inversion HQ as [|a' l' Qa Ql]; subst.
  constructor; [apply IH; exact Ql|].
  rewrite Forall_forall in *. intros b Hb.
  apply Himp; auto.
Qed.

(** ** Soundness of the enclosures of [exp] *)

Lemma IZR_div_le (a d : Z) : (0 < d)%Z -> IZR (a / d) <= IZR a / IZR d.
Proof.
  intros Hd. assert (0 < IZR d) by (apply IZR_lt; exact Hd).
  apply Rmult_le_reg_r with (IZR d); [assumption|].
  unfold Rdiv. rewrite Rmult_assoc, Rinv_l, Rmult_1_r by lra.
  rewrite <- mult_IZR. apply IZR_le.
  rewrite Z.mul_comm. apply Z.mul_div_le. exact Hd.
Qed.

Lemma IZR_div_lt (a d : Z) : (0 < d)%Z -> IZR a / IZR d < IZR (a / d + 1).
Proof.
  intros Hd. assert (0 < IZR d) by (apply IZR_lt; exact Hd).
  apply Rmult_lt_reg_r with (IZR d); [assumption|].
  unfold Rdiv. rewrite Rmult_assoc, Rinv_l, Rmult_1_r by lra.
  rewrite <- mult_IZR. apply IZR_lt.
  rewrite Z.mul_comm. apply Z.mul_succ_div_gt. exact Hd.
Qed.

Lemma scale_pos : 0 < IZR scale.
Proof. apply IZR_lt. reflexivity. Qed.

Lemma exp_double (x : R) : exp (x * 2) = exp x * exp x.
Proof. rewrite <- exp_plus. f_equal. lra. Qed.

Lemma sq_down_sound (a : Z) (x : R) :
  (0 <= a)%Z -> IZR a / IZR scale <= exp x ->
  (0 <= sq_down a)%Z /\ IZR (sq_down a) / IZR scale <= exp (x * 2).
Proof.
  intros Ha Hx. pose proof scale_pos as Hs. unfold sq_down. split.
  - apply Z.div_pos; [nia | reflexivity].
  - rewrite exp_double.
    pose proof (IZR_div_le (a * a) scale eq_refl) as Hd.
    rewrite mult_IZR in Hd.
    assert (0 <= IZR a) by (apply IZR_le; exact Ha).
    assert (0 <= IZR a / IZR scale).
    { apply Rmult_le_pos; [assumption | left; apply Rinv_0_lt_compat; assumption]. }
    apply Rle_trans with (IZR a / IZR scale * (IZR a / IZR scale)).
    + apply Rmult_le_reg_r with (IZR scale); [assumption|].
      unfold Rdiv in *. 
      replace (IZR a * / IZR scale * (IZR a * / IZR scale) * IZR scale)
        with (IZR a * IZR a * / IZR scale * (IZR scale * / IZR scale)) by ring.
      rewrite Rinv_r by lra. 
      rewrite (Rmult_assoc _ (/ IZR scale) (IZR scale)), Rinv_l by lra. lra.
    + apply Rmult_le_compat; assumption.
Qed.

Lemma sq_up_sound (a : Z) (x : R) :
  exp x <= IZR a / IZR scale ->
  exp (x * 2) <= IZR (sq_up a) / IZR scale.
Proof.
  intros Hx. pose proof scale_pos as Hs. unfold sq_up.
  rewrite exp_double. pose proof (exp_pos x) as Hp.
  pose proof (IZR_div_lt (a * a) scale eq_refl) as Hd.
  rewrite mult_IZR in Hd.
  apply Rle_trans with (IZR a / IZR scale * (IZR a / IZR scale)).
  - apply Rmult_le_compat; lra.
  - apply Rmult_le_reg_r with (IZR scale); [assumption|].
    unfold Rdiv in *.
    replace (IZR a * / IZR scale * (IZR a * / IZR scale) * IZR scale)
      with (IZR a * IZR a * / IZR scale * (IZR scale * / IZR scale)) by ring.
    rewrite Rinv_r by lra.
    rewrite (Rmult_assoc _ (/ IZR scale) (IZR scale)), Rinv_l by lra. lra.
Qed.

Lemma iter_sq_down_sound (m : nat) (a : Z) (x : R) :
  (0 <= a)%Z -> IZR a / IZR scale <= exp x ->
  (0 <= Nat.iter m sq_down a)%Z /\
  IZR (Nat.iter m sq_down a) / IZR scale <= exp (x * 2 ^ m).
Proof.
  intros Ha Hx. induction m as [|m [IH1 IH2]].
  - simpl. rewrite Rmult_1_r. auto.
  - simpl Nat.iter.
    replace (x * 2 ^ S m) with (x * 2 ^ m * 2) by (simpl; ring).
    apply sq_down_sound; assumption.
Qed.

Lemma iter_sq_up_sound (m : nat) (a : Z) (x : R) :
  exp x <= IZR a / IZR scale ->
  exp (x * 2 ^ m) <= IZR (Nat.iter m sq_up a) / IZR scale.
Proof.
  intros Hx. induction m as [|m IH].
  - simpl. rewrite Rmult_1_r. auto.
  - simpl Nat.iter.
    replace (x * 2 ^ S m) with (x * 2 ^ m * 2) by (simpl; ring).
    apply sq_up_sound; assumption.
Qed.

Lemma pow2_IZR (m : nat) : IZR (2 ^ Z.of_nat m) = 2 ^ m.
Proof. rewrite <- pow_IZR. reflexivity. Qed.

Lemma exp_below_sound (p q : Z) (m : nat) :
  (0 <= p)%Z -> (0 < q)%Z ->
  IZR (exp_below p q m) / IZR scale <= exp (IZR p / IZR q).
Proof.
  intros Hp Hq. unfold exp_below.
  set (N := (q * 2 ^ Z.of_nat m)%Z).
  assert (HN : (0 < N)%Z) by (unfold N; apply Z.mul_pos_pos; [lia | apply Z.pow_pos_nonneg; lia]).
  assert (HNR : 0 < IZR N) by (apply IZR_lt; exact HN).
  assert (HqR : 0 < IZR q) by (apply IZR_lt; exact Hq).
  assert (H2 : 0 < 2 ^ m) by (apply pow_lt; lra).
  pose proof scale_pos as Hs.
  assert (E : IZR p / IZR q = IZR p / IZR N * 2 ^ m).
  { unfold N. rewrite mult_IZR, pow2_IZR. field. split; lra. }
  rewrite E. apply iter_sq_down_sound.
  - apply Z.div_pos; [|exact HN]. apply Z.mul_nonneg_nonneg; [discriminate | lia].
  - pose proof (IZR_div_le (scale * (N + p)) N HN) as Hd.
    rewrite mult_IZR, plus_IZR in Hd.
    pose proof (exp_ineq1_le (IZR p / IZR N)) as He.
    apply Rle_trans with (1 + IZR p / IZR N); [|exact He].
    apply Rmult_le_reg_r with (IZR scale); [assumption|].
    unfold Rdiv at 1. rewrite Rmult_assoc, Rinv_l, Rmult_1_r by lra.
    eapply Rle_trans; [exact Hd|]. right. field. lra.
Qed.

Lemma exp_above_sound (p q : Z) (m : nat) :
  (0 <= p < q * 2 ^ Z.of_nat m)%Z -> (0 < q)%Z ->
  exp (IZR p / IZR q) <= IZR (exp_above p q m) / IZR scale.
Proof.
  intros Hp Hq. unfold exp_above.
  set (N := (q * 2 ^ Z.of_nat m)%Z) in *.
  assert (HN : (0 < N)%Z) by lia.
  assert (HNR : 0 < IZR N) by (apply IZR_lt; exact HN).
  assert (HqR : 0 < IZR q) by (apply IZR_lt; exact Hq).
  assert (HNp : 0 < IZR N - IZR p) by (rewrite <- minus_IZR; apply IZR_lt; lia).
  assert (H2 : 0 < 2 ^ m) by (apply pow_lt; lra).
  pose proof scale_pos as Hs.
  assert (E : IZR p / IZR q = IZR p / IZR N * 2 ^ m).
  { unfold N. rewrite mult_IZR, pow2_IZR. field. split; lra. }
  rewrite E. apply iter_sq_up_sound.
  pose proof (IZR_div_lt (scale * N) (N - p) ltac:(lia)) as Hd.
  rewrite mult_IZR, minus_IZR in Hd.
  pose proof (exp_ineq1_le (- (IZR p / IZR N))) as He.
  rewrite exp_Ropp in He.
  pose proof (exp_pos (IZR p / IZR N)) as Hpos.
  assert (Hx : 0 < 1 + - (IZR p / IZR N)).
  { apply Rmult_lt_reg_r with (IZR N); [assumption|].
    replace ((1 + - (IZR p / IZR N)) * IZR N) with (IZR N - IZR p) by (field; lra). lra. }
  assert (Hu : exp (IZR p / IZR N) <= / (1 + - (IZR p / IZR N))).
  { rewrite <- (Rinv_inv (exp (IZR p / IZR N))).
    apply Rinv_le_contravar; assumption. }
  eapply Rle_trans; [exact Hu|].
  apply Rmult_le_reg_r with (IZR scale); [assumption|].
  unfold Rdiv at 2. rewrite Rmult_assoc, Rinv_l, Rmult_1_r by lra.
  left. eapply Rle_lt_trans; [|exact Hd]. right. field. split; lra.
Qed.

Ltac enclose_exp p q m :=
  let L := fresh "L" in
  let U := fresh "U" in
  pose proof (exp_below_sound p q m ltac:(lia) ltac:(lia)) as L;
  pose proof (exp_above_sound p q m
                ltac:(vm_compute; split; [discriminate | reflexivity])
                ltac:(lia)) as U;
  let lo := eval vm_compute in (exp_below p q m) in
  change (exp_below p q m) with lo in L;
  let hi := eval vm_compute in (exp_above p q m) in
  change (exp_above p q m) with hi in U;
  unfold scale in L, U.

Lemma exp_2_31 : 10.074 < exp 2.31 < 10.075.
Proof.
  enclose_exp 231%Z 100%Z 20%nat.
  replace (IZR 231 / IZR 100) with 2.31 in * by lra. lra.
Qed.

Lemma ln_10_enclosure : 2.30 < ln 10 < 2.31.
Proof.
  assert (H : exp 2.30 < 10 < exp 2.31).
  { pose proof exp_2_31. enclose_exp 230%Z 100%Z 16%nat.
    replace (IZR 230 / IZR 100) with 2.30 in * by lra. lra. }
  destruct H as [H1 H2]. split.
  - rewrite <- (ln_exp 2.30). apply ln_increasing; [apply exp_pos | exact H1].
  - rewrite <- (ln_exp 2.31). apply ln_increasing; [lra | exact H2].
Qed.

(** ** Range of the generated values and of the band *)

(** C3, on the rates in range: for either model, a rate for which the
    iteration does not overflow (exponential: [k >= 0], or no noise;
    logistic: [k <= 1e307]), any horizon, a noise amplitude in [0, 0.1] and
    any draws of the oracle, every generated value is the ideal value plus
    the noise term, clamped, and lies in [0, 1]. *)
Theorem useCurve_values_in_unit_interval
    (model : Model) (k tMax noise : R) (random : nat -> R) (n : nat) :
  in_range model k noise -> 0 <= noise <= 0.1 ->
  Forall
    (fun p =>
       (exists m,
          y p = Rmax 0 (Rmin 1 (ideal model k tMax (t p)
                                + fst (eps noise random
                                         (ideal model k tMax (t p)) m)))) /\
       0 <= y p <= 1)
    (fst (useCurve model k tMax noise random n)).
Proof.
  intros _ _. unfold useCurve. apply curve_loop_Forall. intros t1 m _. split.
  - exists m. rewrite body_t. unfold body.
    destruct (eps _ _ _ _) as [e n']. reflexivity.
  - apply body_y_range.
Qed.

Lemma useCurve_values_in_unit_interval_witness :
  Forall
    (fun p =>
       (exists m,
          y p = Rmax 0 (Rmin 1 (ideal Logistic 0.03 93 (t p)
                                + fst (eps 0.1 (fun _ => 0.25)
                                         (ideal Logistic 0.03 93 (t p)) m)))) /\
       0 <= y p <= 1)
    (fst (useCurve Logistic 0.03 93 0.1 (fun _ => 0.25) 0)).
Proof.
  apply (useCurve_values_in_unit_interval Logistic 0.03 93 0.1
           (fun _ => 0.25) 0).
  - simpl. lra.
  - lra.
Defined.

(** C6, on the rates in range: for a rate for which the iteration does not
    overflow, every generated point carries a value in [0, 1], the lower
    bound 0.9 times the value, and the upper bound 1.1 times the value
    capped at 1; both bounds lie in [0, 1] around the value. *)
Theorem useCurve_band
    (model : Model) (k tMax noise : R) (random : nat -> R) (n : nat) :
  in_range model k noise ->
  Forall
    (fun p =>
       0 <= y p <= 1 /\
       yLo p = Rmax 0 (Rmin 1 (0.9 * y p)) /\
       yHi p = Rmax 0 (Rmin 1 (1.1 * y p)) /\
       yLo p = 0.9 * y p /\
       yHi p = Rmin 1 (1.1 * y p) /\
       0 <= yLo p <= y p /\ y p <= yHi p <= 1)
    (fst (useCurve model k tMax noise random n)).
Proof.
  intros _.
  unfold useCurve. apply curve_loop_Forall. intros t1 m _.
  pose proof (body_y_range model k tMax noise random t1 m) as Hy.
  destruct (body_bounds model k tMax noise random t1 m) as [Hlo Hhi].
  set (p := fst (body model k tMax noise random t1 m)) in *.
  assert (Elo : yLo p = 0.9 * y p).
  { rewrite Hlo, Rmax_right by lra. lra. }
  assert (Ehi : yHi p = Rmin 1 (1.1 * y p)).
  { rewrite Hhi. f_equal. lra. }
  assert (Hmin : 0 <= Rmin 1 (1.1 * y p) <= 1).
  { split; [apply Rmin_glb; lra | apply Rmin_l]. }
  assert (Hge : y p <= Rmin 1 (1.1 * y p)) by (apply Rmin_glb; lra).
  refine (conj Hy (conj _ (conj _ (conj Elo (conj _ (conj _ _)))))).
  - rewrite Rmin_right, Rmax_right by lra. exact Elo.
  - rewrite Ehi. symmetry. apply Rmax_right. apply Hmin.
  - exact Ehi.
  - lra.
  - rewrite Ehi. lra.
Qed.

Lemma useCurve_band_witness :
  Forall
    (fun p =>
       0 <= y p <= 1 /\
       yLo p = Rmax 0 (Rmin 1 (0.9 * y p)) /\
       yHi p = Rmax 0 (Rmin 1 (1.1 * y p)) /\
       yLo p = 0.9 * y p /\
       yHi p = Rmin 1 (1.1 * y p) /\
       0 <= yLo p <= y p /\ y p <= yHi p <= 1)
    (fst (useCurve Exp 0.03 93 0.02 (fun _ => 0.25) 0)).
Proof.
  apply (useCurve_band Exp 0.03 93 0.02 (fun _ => 0.25) 0).
  simpl. left. lra.
Defined.

(** ** The exponential model without noise *)

Lemma step_below_120 (tMax : R) : tMax < 120 -> step tMax = 1.
Proof.
  intros H. unfold step. apply Rmax_left.
  pose proof (Zfloor_bound (tMax / 60)) as [B _].
  assert (Hlt : (Zfloor (tMax / 60) < 2)%Z) by (apply lt_IZR; lra).
  apply IZR_le. lia.
Qed.

Section ExponentialCurve.

Variables k tMax : R.
Variable random : nat -> R.
Hypothesis k_pos : 0 < k.

Lemma exp_ideal_range (t0 : R) : 0 <= t0 -> 0 < exp (- k * t0) <= 1.
Proof.
  intros Ht. split; [apply exp_pos|]. apply exp_le_1. nra.
Qed.

Lemma exp_body (t0 : R) (n : nat) :
  0 <= t0 ->
  y (fst (body Exp k tMax 0 random t0 n)) = exp (- k * t0).
Proof.
  intros Ht. rewrite body_noiseless by reflexivity. simpl.
  pose proof (exp_ideal_range t0 Ht).
  rewrite Rmin_right, Rmax_right by lra. reflexivity.
Qed.

(** Each point of the curve lies on the graph of [exp (- k * t)]. *)
Lemma exp_curve_points (n : nat) :
  Forall (fun p => 0 <= t p <= tMax /\ y p = exp (- k * t p))
    (fst (useCurve Exp k tMax 0 random n)).
Proof.
  unfold useCurve. apply curve_loop_Forall. intros t1 m Ht1.
  rewrite body_t. split; [exact Ht1|]. apply exp_body. lra.
Qed.

Lemma exp_curve_first (n : nat) :
  0 <= tMax ->
  exists rest,
    fst (useCurve Exp k tMax 0 random n) = mkPoint 0 1 0.9 1 :: rest.
Proof.
  intros Hm. destruct (useCurve_head Exp k tMax 0 random n Hm) as [rest E].
  exists rest. rewrite E. f_equal.
  rewrite body_noiseless by reflexivity. simpl.
  replace (- k * 0) with 0 by lra. rewrite exp_0.
  rewrite (Rmin_left 1 1), (Rmax_right 0 1) by lra.
  rewrite Rmax_right, Rmin_left by lra.
  f_equal; lra.
Qed.

Lemma exp_curve_decreasing (n : nat) :
  StronglySorted (fun p q => t p < t q /\ y q <= y p)
    (fst (useCurve Exp k tMax 0 random n)).
Proof.
  apply (StronglySorted_transport (fun p q => t p < t q) _
           (fun p => 0 <= t p <= tMax /\ y p = exp (- k * t p))).
  - intros a b [_ Ea] [_ Eb] Hab. split; [exact Hab|].
    rewrite Ea, Eb. apply exp_le_mono. nra.
  - apply exp_curve_points.
  - apply curve_loop_times_sorted.
Qed.

(** The value of a sample, relative to the value 0.1 reached at
    [ln 10 / k]. *)
Lemma exp_value_near_t90 (t0 d : R) :
  Rabs (t0 - ln 10 / k) <= d ->
  exp (- k * t0) = 0.1 * exp (- k * (t0 - ln 10 / k)) /\
  0.1 * exp (- (k * d)) <= exp (- k * t0) <= 0.1 * exp (k * d).
Proof.
  intros Hd.
  assert (E : exp (- k * t0) = 0.1 * exp (- k * (t0 - ln 10 / k))).
  { rewrite <- exp_opp_ln_10, <- exp_plus. f_equal. field. lra. }
  split; [exact E|]. rewrite E.
  apply Rabs_le_between in Hd. destruct Hd as [Hd1 Hd2].
  pose proof (exp_le_mono (- (k * d)) (- k * (t0 - ln 10 / k))) as L.
  pose proof (exp_le_mono (- k * (t0 - ln 10 / k)) (k * d)) as U.
  split; apply Rmult_le_compat_l; try lra; [apply L | apply U]; nra.
Qed.

End ExponentialCurve.

(** *** On the horizon the component derives *)

Section ExponentialOnDerivedHorizon.

Variable k : R.
Variable random : nat -> R.
Hypothesis k_range : 1e-6 <= k <= 0.1.

Local Abbreviation T := (WeightLossProjection_tMax k).
Local Abbreviation h := (step T).

Lemma t90_unfloored : t90 k = ln 10 / k /\ k * t90 k = ln 10.
Proof.
  unfold t90. rewrite Rmax_right by lra. split; [reflexivity|].
  field. lra.
Qed.

Lemma t90_ge_10 : 10 <= t90 k.
Proof.
  destruct t90_unfloored as [_ E]. pose proof ln_10_gt_1 as Hl.
  destruct (Rle_dec 10 (t90 k)) as [H|H]; [exact H|].
  exfalso.
  assert (Hp : 0 <= t90 k).
  { destruct (Rle_dec 0 (t90 k)) as [H0|H0]; [exact H0|]. exfalso. nra. }
  assert (k * t90 k <= 0.1 * 10); [|lra].
  apply Rmult_le_compat; lra.
Qed.

Lemma derived_horizon_bounds : t90 k * 1.2 <= T < t90 k * 1.2 + 1.
Proof.
  unfold WeightLossProjection_tMax.
  pose proof (Zceil_bound (t90 k * 1.2)). lra.
Qed.

Lemma derived_step_bounds : 1 <= h /\ (h = 1 \/ h <= T / 60).
Proof.
  split; [apply step_ge_1|]. unfold step.
  apply Rmax_case_strong; intros H; [left; reflexivity|right].
  apply Zfloor_bound.
Qed.

(** Half a step is a small part of the distance from [t90] to the horizon
    and, multiplied by the rate, at most 0.05. *)
Lemma half_step_small : t90 k + h / 2 <= T /\ k * (h / 2) <= 0.05.
Proof.
  destruct t90_unfloored as [_ E]. pose proof t90_ge_10 as H10.
  pose proof derived_horizon_bounds as [T1 T2].
  pose proof ln_10_gt_1 as Hl.
  destruct derived_step_bounds as [h1 [h2|h2]].
  - rewrite h2. split; lra.
  - split; [lra|].
    assert (Hkh : k * h <= k * (T / 60)) by (apply Rmult_le_compat_l; lra).
    assert (HkT : k * T <= k * (t90 k * 1.2 + 1))
      by (apply Rmult_le_compat_l; lra).
    assert (Hl2 : ln 10 < 2.31) by apply ln_10_enclosure.
    lra.
Qed.

(** A sample is taken within half a step of [t90]. *)
Lemma sample_near_t90 (n : nat) :
  exists p, In p (fst (useCurve Exp k T 0 random n)) /\
            Rabs (t p - t90 k) <= h / 2.
Proof.
  destruct derived_step_bounds as [h1 _].
  destruct half_step_small as [Hfit _]. pose proof t90_ge_10 as H10.
  set (x := t90 k / h).
  assert (Ex : x * h = t90 k) by (unfold x; field; lra).
  assert (Hx : 0 <= x).
  { unfold x, Rdiv. apply Rmult_le_pos; [lra|].
    left. apply Rinv_0_lt_compat. lra. }
  pose proof (Zfloor_bound (x + 1 / 2)) as [F1 F2].
  set (z := Zfloor (x + 1 / 2)) in *.
  assert (Hz : (0 <= z)%Z).
  { apply Zfloor_lub. simpl. lra. }
  assert (Ej : INR (Z.to_nat z) = IZR z).
  { rewrite INR_IZR_INZ, Z2Nat.id by exact Hz. reflexivity. }
  assert (Hdist : Rabs (IZR z * h - t90 k) <= h / 2).
  { rewrite <- Ex. apply Rabs_le. split; nra. }
  assert (Hle : 0 + INR (Z.to_nat z) * h <= T).
  { rewrite Ej. apply Rabs_le_between in Hdist. lra. }
  pose proof (curve_loop_nth Exp k T 0 random (Z.to_nat z) eq_refl 0 n Hle)
    as Hnth.
  eexists. split; [apply (nth_error_In _ _ Hnth)|].
  rewrite body_t, Ej. replace (0 + IZR z * h - t90 k)
    with (IZR z * h - t90 k) by lra.
  exact Hdist.
Qed.

(** The sample nearest [t90] has a value within 0.0053 of 0.1. *)
Lemma nearest_sample_value (n : nat) (p : Point) :
  let pts := fst (WeightLossProjection_data random Exp k 0 n) in
  In p pts ->
  (forall q, In q pts -> Rabs (t p - t90 k) <= Rabs (t q - t90 k)) ->
  0.095 <= y p <= 0.1053.
Proof.
  intros pts Hp Hnear. unfold pts, WeightLossProjection_data in *.
  destruct (sample_near_t90 n) as [p0 [Hp0 Hd0]].
  assert (Hk : 0 < k) by lra.
  pose proof (exp_curve_points k T random Hk n) as Hpts.
  rewrite Forall_forall in Hpts. destruct (Hpts p Hp) as [_ Ey].
  destruct t90_unfloored as [E90 _].
  assert (Hd : Rabs (t p - ln 10 / k) <= h / 2).
  { rewrite <- E90. eapply Rle_trans; [apply Hnear; exact Hp0 | exact Hd0]. }
  destruct (exp_value_near_t90 k Hk (t p) (h / 2) Hd) as [_ [L U]].
  destruct half_step_small as [_ Hkh].
  pose proof (exp_ineq1_le (- (k * (h / 2)))) as Lo.
  pose proof (exp_ineq1_le (- (k * (h / 2)))) as Hi.
  rewrite exp_Ropp in Hi.
  pose proof (exp_pos (k * (h / 2))) as Hpos.
  assert (Hup : exp (k * (h / 2)) <= / 0.95).
  { rewrite <- (Rinv_inv (exp (k * (h / 2)))).
    apply Rinv_le_contravar; lra. }
  assert (H95 : / 0.95 <= 1.053).
  { apply Rmult_le_reg_r with 0.95; [lra|]. rewrite Rinv_l by lra. lra. }
  rewrite Ey. split; lra.
Qed.

End ExponentialOnDerivedHorizon.

(** C1, as far as the code supports it: for the exponential model without
    noise, a positive rate [k] and a positive horizon, the first generated
    point is at [t = 0] with value 1, the values do not increase along the
    sequence, and a point sampled at time [t] has the value
    [0.1 * exp (- k * (t - ln 10 / k))]: exactly 0.1 at [ln 10 / k], and
    within the factors [exp (- k * d)] and [exp (k * d)] of 0.1 when the
    sampled time is within [d] of [ln 10 / k].  On the horizon the component
    derives from a rate between 1e-6 and 0.1 (the slider stays within), the
    value at the sampled time nearest [ln 10 / k] is within 0.0053 of
    0.1. *)
Theorem useCurve_exp_noiseless
    (k tMax : R) (random : nat -> R) (n : nat) :
  0 < k -> 0 < tMax ->
  let pts := fst (useCurve Exp k tMax 0 random n) in
  (exists rest, pts = mkPoint 0 1 0.9 1 :: rest) /\
  StronglySorted (fun p q => t p < t q /\ y q <= y p) pts /\
  Forall
    (fun p =>
       y p = 0.1 * exp (- k * (t p - ln 10 / k)) /\
       forall d, Rabs (t p - ln 10 / k) <= d ->
                 0.1 * exp (- (k * d)) <= y p <= 0.1 * exp (k * d))
    pts /\
  (1e-6 <= k <= 0.1 -> tMax = WeightLossProjection_tMax k ->
   forall p,
     In p pts ->
     (forall q, In q pts ->
                Rabs (t p - ln 10 / k) <= Rabs (t q - ln 10 / k)) ->
     0.095 <= y p <= 0.1053).
Proof.
  intros Hk Hm pts. subst pts. split; [|split; [|split]].
  - apply exp_curve_first; lra.
  - apply exp_curve_decreasing; exact Hk.
  - eapply Forall_impl; [|apply (exp_curve_points k tMax random Hk n)].
    intros p [_ Ey]. rewrite Ey. split.
    + apply (exp_value_near_t90 k Hk (t p) (Rabs (t p - ln 10 / k))).
      apply Rle_refl.
    + intros d Hd. apply (exp_value_near_t90 k Hk (t p) d Hd).
  - intros Hr ET p Hp Hnear. subst tMax.
    destruct (t90_unfloored k Hr) as [E90 _].
    apply (nearest_sample_value k random Hr n p); [exact Hp|].
    rewrite E90. exact Hnear.
Qed.

(** C1 as stated fails: with rate 0.03 and horizon 10 the samples are taken
    at [t = 0, 1, ..., 10], the sampled time nearest [ln 10 / 0.03] is 10,
    and the value there, as everywhere on this curve, is at least 0.7. *)
Lemma useCurve_exp_short_horizon :
  let pts := fst (useCurve Exp 0.03 10 0 (fun _ => 0) 0) in
  Forall (fun q => 0.7 <= y q) pts /\
  exists p,
    In p pts /\ t p = 10 /\
    (forall q, In q pts ->
               Rabs (t p - ln 10 / 0.03) <= Rabs (t q - ln 10 / 0.03)) /\
    0.6 <= Rabs (y p - 0.1).
Proof.
  intros pts.
  assert (Hk : 0 < 0.03) by lra.
  assert (Hfar : 10 < ln 10 / 0.03).
  { pose proof ln_10_gt_1. unfold Rdiv.
    replace (/ 0.03) with (100 / 3) by lra. lra. }
  assert (Hall : Forall (fun q => t q <= 10 /\ 0.7 <= y q) pts).
  { eapply Forall_impl;
      [|apply (exp_curve_points 0.03 10 (fun _ => 0) Hk 0)].
    intros q [Ht Ey]. split; [lra|]. rewrite Ey.
    match goal with |- _ <= exp ?a => pose proof (exp_ineq1_le a) end.
    lra. }
  split.
  - eapply Forall_impl; [|exact Hall]. intros q [_ Hq]. exact Hq.
  - assert (Hstep : step 10 = 1) by (apply step_below_120; lra).
    assert (E : nth_error pts 10 =
                Some (fst (body Exp 0.03 10 0 (fun _ => 0) 10 0))).
    { unfold pts, useCurve.
      rewrite (curve_loop_nth Exp 0.03 10 0 (fun _ => 0) 10 eq_refl 0 0);
        rewrite Hstep; simpl INR.
      - do 3 f_equal. lra.
      - lra. }
    eexists. split; [apply (nth_error_In _ _ E)|].
    rewrite body_t. split; [reflexivity|]. split.
    + intros q Hq. rewrite Forall_forall in Hall.
      destruct (Hall q Hq) as [Hq1 _].
      rewrite !Rabs_left1 by lra. lra.
    + rewrite (exp_body 0.03 10 (fun _ => 0) Hk) by lra.
      match goal with |- _ <= Rabs (exp ?a - _) =>
        pose proof (exp_ineq1_le a) end.
      rewrite Rabs_pos_eq by lra. lra.
Qed.

(** ** The scenario with rate 0.03 *)

Lemma t90_003 : t90 0.03 = ln 10 * (100 / 3).
Proof.
  unfold t90. rewrite Rmax_right by lra.
  unfold Rdiv. replace (/ 0.03) with (100 * / 3) by lra. reflexivity.
Qed.

(** The horizon the component derives for the initial rate is 93 (the
    product [1.2 * t90] is about 92.1). *)
Lemma WeightLossProjection_tMax_003 : WeightLossProjection_tMax 0.03 = 93.
Proof.
  unfold WeightLossProjection_tMax. rewrite t90_003.
  pose proof ln_10_enclosure as [L U].
  f_equal. apply Zceil_eq. lra.
Qed.

(** The statement of C1 at the initial rate 0.03 on the horizon derived
    from it. *)
Lemma useCurve_exp_noiseless_witness :
  let k := 0.03 in
  let tMax := WeightLossProjection_tMax 0.03 in
  let pts := fst (useCurve Exp k tMax 0 (fun _ => 0) 0) in
  (exists rest, pts = mkPoint 0 1 0.9 1 :: rest) /\
  StronglySorted (fun p q => t p < t q /\ y q <= y p) pts /\
  Forall
    (fun p =>
       y p = 0.1 * exp (- k * (t p - ln 10 / k)) /\
       forall d, Rabs (t p - ln 10 / k) <= d ->
                 0.1 * exp (- (k * d)) <= y p <= 0.1 * exp (k * d))
    pts /\
  (1e-6 <= k <= 0.1 -> tMax = WeightLossProjection_tMax k ->
   forall p,
     In p pts ->
     (forall q, In q pts ->
                Rabs (t p - ln 10 / k) <= Rabs (t q - ln 10 / k)) ->
     0.095 <= y p <= 0.1053).
Proof.
  apply (useCurve_exp_noiseless 0.03 (WeightLossProjection_tMax 0.03)
           (fun _ => 0) 0).
  - lra.
  - rewrite WeightLossProjection_tMax_003. lra.
Defined.

Lemma exp_003_at_77 : 0.0992 < exp (Ropp 0.03 * 77) < 0.0993.
Proof.
  replace (Ropp 0.03 * 77) with (Ropp 2.31) by lra. rewrite exp_Ropp.
  pose proof exp_2_31 as [L U].
  assert (Hp : 0 < / exp 2.31) by (apply Rinv_0_lt_compat; lra).
  assert (E : / exp 2.31 * exp 2.31 = 1) by (apply Rinv_l; lra).
  split.
  - apply Rmult_lt_reg_r with (exp 2.31); [lra|]. rewrite E. lra.
  - apply Rmult_lt_reg_r with (exp 2.31); [lra|]. rewrite E. lra.
Qed.

(** With a horizon between 77 and 120 the step is 1, the first point is
    [(0, 1)] and the point of index 77 is the sample at [t = 77]. *)
Lemma exp_003_curve (tMax : R) (random : nat -> R) (n : nat) :
  77 <= tMax < 120 ->
  let pts := fst (useCurve Exp 0.03 tMax 0 random n) in
  nth_error pts 0 = Some (mkPoint 0 1 0.9 1) /\
  exists p, nth_error pts 77 = Some p /\
            t p = 77 /\ 0.0992 < y p < 0.0993 /\ Rabs (y p - 0.1) < 0.001.
Proof.
  intros [Hlo Hhi] pts. subst pts.
  assert (Hk : 0 < 0.03) by lra. split.
  - destruct (exp_curve_first 0.03 tMax random n) as [rest E];
      [lra|]. rewrite E. reflexivity.
  - unfold useCurve.
    rewrite (curve_loop_nth Exp 0.03 tMax 0 random 77 eq_refl 0 n).
    + rewrite (step_below_120 tMax Hhi).
      replace (0 + INR 77 * 1) with 77 by (simpl; lra).
      eexists. split; [reflexivity|].
      rewrite body_t, (exp_body 0.03 tMax random Hk) by lra.
      pose proof exp_003_at_77 as [A B].
      split; [reflexivity|]. split; [lra|].
      apply Rabs_def1; lra.
    + rewrite (step_below_120 tMax Hhi). simpl. lra.
Qed.

(** C2: with the exponential model, rate 0.03 and no noise, both for the
    horizon 92 quoted by the scenario and for the horizon the component
    derives (which is 93), the first generated point is [(t = 0, y = 1)] and
    the point at [t = 77] has a value between 0.0992 and 0.0993, within
    0.001 of 0.1. *)
Theorem scenario_exp_rate_003 (random : nat -> R) (n : nat) :
  let expected (pts : list Point) :=
    nth_error pts 0 = Some (mkPoint 0 1 0.9 1) /\
    exists p, nth_error pts 77 = Some p /\
              t p = 77 /\ 0.0992 < y p < 0.0993 /\ Rabs (y p - 0.1) < 0.001 in
  expected (fst (useCurve Exp 0.03 92 0 random n)) /\
  WeightLossProjection_tMax 0.03 = 93 /\
  expected (fst (WeightLossProjection_data random Exp 0.03 0 n)).
Proof.
  intros expected. subst expected. cbv beta. split; [|split].
  - apply exp_003_curve. lra.
  - exact WeightLossProjection_tMax_003.
  - unfold WeightLossProjection_data.
    rewrite WeightLossProjection_tMax_003.
    apply exp_003_curve. lra.
Qed.

(** ** The floors on the rate *)

Lemma rate_floor_pos (k : R) : 1e-6 <= Rmax 1e-6 k.
Proof. apply Rmax_l. Qed.

Lemma logistic_s_floor (k : R) : 1e-3 <= logistic_s k.
Proof. apply Rmax_l. Qed.

Lemma t90_range (k : R) : 0 < t90 k <= 1000000 * ln 10.
Proof.
  unfold t90. pose proof (rate_floor_pos k) as Hm.
  pose proof ln_10_gt_1 as Hl.
  set (m := Rmax 1e-6 k) in *.
  assert (Hmp : 0 < m) by lra.
  assert (Hi : 0 < / m) by (apply Rinv_0_lt_compat; exact Hmp).
  assert (E : / m * m = 1) by (apply Rinv_l; lra).
  unfold Rdiv. split; [nra|].
  assert (/ m <= 1000000); [|nra].
  apply Rmult_le_reg_r with m; [exact Hmp|]. rewrite E. lra.
Qed.

Lemma logistic_ideal_range (k tMax t0 : R) :
  0 < ideal Logistic k tMax t0 < 1.
Proof.
  unfold ideal.
  pose proof (exp_pos (- logistic_s k * (t0 - logistic_x0 tMax))) as Hp.
  set (e := exp _) in *.
  assert (Hi : 0 < / (1 + e)) by (apply Rinv_0_lt_compat; lra).
  assert (E : / (1 + e) * (1 + e) = 1) by (apply Rinv_l; lra).
  unfold Rdiv. cbv zeta. nra.
Qed.

Lemma logistic_s_ceiling (k : R) : k <= 1e307 -> logistic_s k <= 1e308.
Proof. intros H. unfold logistic_s. apply Rmax_lub; lra. Qed.

(** C7, as far as the code supports it: for every rate, also zero or
    negative, the divisor of [t90] is at least 1e-6, so [t90] is positive
    and below 2310000, and the steepness [s] is at least 1e-3; for a rate
    of at most 1e307 the steepness is at most 1e308, short of the largest
    binary64 number, the denominator [1 + exp (- s (t - x0))] is at least
    1, and the logistic value lies in [0, 1]. *)
Theorem rate_floors (k : R) :
  1e-6 <= Rmax 1e-6 k /\
  0 < t90 k <= 1000000 * ln 10 /\
  t90 k < 2310000 /\
  1e-3 <= logistic_s k /\
  (k <= 1e307 ->
   logistic_s k <= 1e308 /\
   forall tMax t0,
     1 <= 1 + exp (- logistic_s k * (t0 - logistic_x0 tMax)) /\
     0 <= ideal Logistic k tMax t0 <= 1).
Proof.
  pose proof (t90_range k) as Ht. pose proof ln_10_enclosure as [_ Hl].
  split; [apply rate_floor_pos|]. split; [exact Ht|].
  split; [lra|]. split; [apply logistic_s_floor|].
  intros Hk. split; [apply logistic_s_ceiling; exact Hk|].
  intros tMax t0. split.
  - pose proof (exp_pos (- logistic_s k * (t0 - logistic_x0 tMax))). lra.
  - pose proof (logistic_ideal_range k tMax t0). lra.
Qed.

(** ** Outside the range: the generator in binary64 *)

Section OutOfRange.

Import Stdlib.Floats.PrimFloat.

(** C3 as stated fails: with the logistic model, the rate 1e308, the
    horizon 4 and no noise, [10 * k] is infinite, [x0] is 1, and at the
    sampled time 1 the exponent is infinity times zero: the value generated
    there is NaN, which is neither at least 0 nor at most 1. *)
Lemma useCurve64_value_not_in_unit_interval :
  exists pts p,
    useCurve64 Logistic 1e308%float 4%float 0%float (fun _ => 0.5%float) 6 0
    = Some (pts, 0%nat) /\
    nth_error pts 1 = Some p /\
    t64 p = 1%float /\
    is_nan (y64 p) = true /\
    leb 0%float (y64 p) = false /\ leb (y64 p) 1%float = false.
Proof.
  eexists. eexists. split; [vm_compute; reflexivity|].
  split; [reflexivity|]. repeat split.
Qed.

(** C6 as stated fails on both readings.  At the first point of a curve the
    value is 1 and the upper bound is 1, not 1.1 times the value; and at
    the rate 1e308 of the logistic model the point sampled at time 1 has
    NaN for its value and for both bounds. *)
Lemma useCurve_band_not_ten_percent :
  (exists p rest,
     fst (useCurve Exp 0.03 93 0 (fun _ => 0) 0) = p :: rest /\
     y p = 1 /\ yHi p = 1 /\ 1.1 * y p = 1.1) /\
  (exists pts p,
     useCurve64 Logistic 1e308%float 4%float 0%float (fun _ => 0.5%float) 6 0
     = Some (pts, 0%nat) /\
     nth_error pts 1 = Some p /\
     is_nan (y64 p) = true /\
     is_nan (yLo64 p) = true /\ is_nan (yHi64 p) = true).
Proof.
  split.
  - destruct (exp_curve_first 0.03 93 (fun _ => 0) 0) as [rest E]; [lra|].
    exists (mkPoint 0 1 0.9 1), rest.
    split; [exact E|]. cbn [y yHi]. repeat split; lra.
  - eexists. eexists. split; [vm_compute; reflexivity|].
    split; [reflexivity|]. repeat split.
Qed.

(** C7 as stated fails: at the rate 1e308 the steepness
    [max(1e-3, 10 * k)] is infinite, and at the time [x0] the logistic value
    is NaN. *)
Lemma logistic_s64_not_finite :
  logistic_s64 1e308%float = infinity /\
  is_finite (logistic_s64 1e308%float) = false /\
  ideal64 Logistic 1e308%float 4%float 1%float = Some nan.
Proof. repeat split. Qed.

(** Why the ranking is followed only up to a noise amplitude just below
    0.005: at 0.005, with the draw 0 for "Sillage" (weight 0.18) and the
    draw [1 - 2^-52] for "Texture" (weight 0.17), the two values of "Day 1"
    computed in binary64 are 0.17499999999999999 and 0.17500000000000002,
    and the comparator puts "Texture" first. *)
Lemma first_noise_step_can_swap_binary64 :
  let value64 (v r noise : float) :=
    Math_max64 0%float (add v (mul (mul (sub r 0.5%float) 2%float) noise)) in
  let sillage := value64 0.18%float 0%float 0.005%float in
  let texture := value64 0.17%float 0.9999999999999998%float 0.005%float in
  ltb 0.9999999999999998%float 1%float = true /\
  ltb 0%float (sub texture sillage) = true.
Proof. split; reflexivity. Qed.

End OutOfRange.

(** ** The logistic model without noise, on the derived horizon *)

Section LogisticCurve.

Variable k : R.
Variable random : nat -> R.

Local Abbreviation tMax := (WeightLossProjection_tMax k).
Local Abbreviation s := (logistic_s k).
Local Abbreviation x0 := (logistic_x0 tMax).
Local Abbreviation value := (ideal Logistic k tMax).

Lemma s_pos : 0 < s.
Proof. pose proof (logistic_s_floor k). lra. Qed.

(** The steepness is at least ten times the floored rate. *)
Lemma s_ge_rate : 10 * Rmax 1e-6 k <= s.
Proof.
  unfold logistic_s. apply Rmax_case_strong; intros H.
  - apply Rle_trans with 1e-3; [lra | apply Rmax_l].
  - apply Rmax_r.
Qed.

Lemma tMax_ge : t90 k * 1.2 <= tMax.
Proof. unfold WeightLossProjection_tMax. apply Zceil_bound. Qed.

Lemma tMax_pos : 0 < tMax.
Proof. pose proof tMax_ge. pose proof (t90_range k). lra. Qed.

(** The midpoint [x0] lies at least [3 ln 10 / s] after the origin. *)
Lemma s_x0_ge : 3 * ln 10 <= s * x0.
Proof.
  pose proof s_ge_rate as Hs. pose proof tMax_ge as Ht.
  pose proof (rate_floor_pos k) as Hm. pose proof ln_10_gt_1 as Hl.
  unfold logistic_x0. unfold t90 in Ht.
  set (m := Rmax 1e-6 k) in *.
  assert (Hi : 0 < / m) by (apply Rinv_0_lt_compat; lra).
  assert (E : m * / m = 1) by (apply Rinv_r; lra).
  unfold Rdiv in Ht.
  assert (H1 : 10 * m * (ln 10 * / m * 1.2 * 0.25) = 3 * ln 10).
  { replace (10 * m * (ln 10 * / m * 1.2 * 0.25))
      with (3 * ln 10 * (m * / m)) by lra.
    rewrite E. lra. }
  assert (H2 : 0 <= ln 10 * / m * 1.2 * 0.25) by nra.
  assert (H3 : ln 10 * / m * 1.2 * 0.25 <= WeightLossProjection_tMax k * 0.25)
    by lra.
  rewrite <- H1.
  apply Rmult_le_compat; lra.
Qed.

Lemma value_eq (t0 : R) :
  value t0 = exp (- s * (t0 - x0)) / (1 + exp (- s * (t0 - x0))).
Proof.
  unfold ideal. cbv zeta.
  pose proof (exp_pos (- s * (t0 - x0))) as Hp.
  field. lra.
Qed.

Lemma value_range (t0 : R) : 0 < value t0 < 1.
Proof. apply logistic_ideal_range. Qed.

Lemma value_le_exp (t0 : R) : value t0 <= exp (- s * (t0 - x0)).
Proof.
  rewrite value_eq. pose proof (exp_pos (- s * (t0 - x0))) as Hp.
  set (e := exp _) in *.
  assert (Hi : 0 < / (1 + e)) by (apply Rinv_0_lt_compat; lra).
  assert (E : / (1 + e) * (1 + e) = 1) by (apply Rinv_l; lra).
  unfold Rdiv. nra.
Qed.

Lemma value_antitone (t1 t2 : R) : t1 <= t2 -> value t2 <= value t1.
Proof.
  intros Hle. unfold ideal. cbv zeta.
  pose proof s_pos as Hs.
  pose proof (exp_pos (- s * (t1 - x0))) as P1.
  pose proof (exp_pos (- s * (t2 - x0))) as P2.
  assert (He : exp (- s * (t2 - x0)) <= exp (- s * (t1 - x0)))
    by (apply exp_le_mono; nra).
  assert (Hinv : / (1 + exp (- s * (t1 - x0)))
                 <= / (1 + exp (- s * (t2 - x0))))
    by (apply Rinv_le_contravar; lra).
  unfold Rdiv. lra.
Qed.

Lemma value_at_0 : 1000 / 1001 <= value 0.
Proof.
  unfold ideal. cbv zeta. pose proof s_x0_ge as H.
  assert (He : 1000 <= exp (- s * (0 - x0))).
  { replace 1000 with (exp (3 * ln 10)).
    - apply exp_le_mono. lra.
    - replace (3 * ln 10) with (ln 10 + (ln 10 + ln 10)) by lra.
      rewrite !exp_plus, exp_ln by lra. lra. }
  assert (Hinv : / (1 + exp (- s * (0 - x0))) <= / 1001)
    by (apply Rinv_le_contravar; lra).
  unfold Rdiv. lra.
Qed.

Lemma value_late (t0 : R) : tMax / 2 <= t0 -> value t0 <= 1 / 1001.
Proof.
  intros Ht. unfold ideal. cbv zeta. pose proof s_x0_ge as H.
  pose proof s_pos as Hs.
  pose proof (exp_pos (- s * (t0 - x0))) as Hp.
  assert (He : exp (- s * (t0 - x0)) <= / 1000).
  { replace (/ 1000) with (exp (- (3 * ln 10))).
    - apply exp_le_mono. unfold logistic_x0 in *. nra.
    - rewrite exp_Ropp. f_equal.
      replace (3 * ln 10) with (ln 10 + (ln 10 + ln 10)) by lra.
      rewrite !exp_plus, exp_ln by lra. lra. }
  assert (Hinv : / (1 + / 1000) <= / (1 + exp (- s * (t0 - x0))))
    by (apply Rinv_le_contravar; lra).
  unfold Rdiv. lra.
Qed.

(** In units of the horizon: at [r * tMax] the value is at most
    [1000 ^ - (4 r - 1)]. *)
Lemma value_relative (r : R) :
  1 / 4 <= r -> value (r * tMax) <= exp (- (3 * ln 10) * (4 * r - 1)).
Proof.
  intros Hr. eapply Rle_trans; [apply value_le_exp|].
  apply exp_le_mono. pose proof s_x0_ge as H. pose proof tMax_pos as Ht.
  unfold logistic_x0 in *.
  replace (- s * (r * tMax - tMax * 0.25))
    with (- (s * (tMax * 0.25)) * (4 * r - 1)) by lra.
  nra.
Qed.

Lemma value_vanishes (e : R) :
  0 < e -> exists T, forall t0, T <= t0 -> 0 < value t0 < e.
Proof.
  intros He. pose proof s_pos as Hs.
  exists (x0 - ln e / s + 1). intros t0 Ht.
  split; [apply value_range|].
  eapply Rle_lt_trans; [apply value_le_exp|].
  rewrite <- (exp_ln e He). apply exp_increasing.
  assert (E : s * (ln e / s) = ln e) by (field; lra).
  assert (Hm : 0 <= s * (t0 - (x0 - ln e / s + 1)))
    by (apply Rmult_le_pos; lra).
  lra.
Qed.

Lemma logistic_body (t0 : R) (n : nat) :
  y (fst (body Logistic k tMax 0 random t0 n)) = value t0.
Proof.
  rewrite body_noiseless by reflexivity. cbv zeta. cbn [fst y].
  pose proof (value_range t0).
  rewrite Rmin_right, Rmax_right by lra. reflexivity.
Qed.

Lemma logistic_curve_points (n : nat) :
  Forall (fun p => y p = value (t p))
    (fst (useCurve Logistic k tMax 0 random n)).
Proof.
  unfold useCurve. apply curve_loop_Forall. intros t1 m _.
  rewrite body_t. apply logistic_body.
Qed.

End LogisticCurve.

(** C5: for the logistic model without noise on the horizon derived from the
    rate (for every rate, positive ones included), the first generated point
    is at [t = 0] with a value of at least 1000/1001; the values do not
    increase along the sequence; every value is bounded by
    [exp (- s (t - x0))], is at most 1/1001 from the middle of the horizon
    on, is at most [exp (- 3 ln 10 (4 r - 1))] at [r] horizons, and tends
    to 0 as [t] grows. *)
Theorem useCurve_logistic_noiseless (k : R) (random : nat -> R) (n : nat) :
  let tMax := WeightLossProjection_tMax k in
  let pts := fst (useCurve Logistic k tMax 0 random n) in
  (exists p0 rest,
     pts = p0 :: rest /\ t p0 = 0 /\ 1000 / 1001 <= y p0 <= 1) /\
  StronglySorted (fun p q => t p < t q /\ y q <= y p) pts /\
  Forall
    (fun p =>
       y p = ideal Logistic k tMax (t p) /\
       y p <= exp (- logistic_s k * (t p - logistic_x0 tMax)) /\
       (tMax / 2 <= t p -> y p <= 1 / 1001))
    pts /\
  (forall r, 1 / 4 <= r ->
             ideal Logistic k tMax (r * tMax)
             <= exp (- (3 * ln 10) * (4 * r - 1))) /\
  (forall e, 0 < e ->
             exists T, forall t0, T <= t0 -> 0 < ideal Logistic k tMax t0 < e).
Proof.
  intros tMax pts. subst tMax pts.
  pose proof (logistic_curve_points k random n) as Hpts.
  split; [|split; [|split; [|split]]].
  - destruct (useCurve_head Logistic k (WeightLossProjection_tMax k) 0
                random n) as [rest E].
    { left. apply tMax_pos. }
    exists (fst (body Logistic k (WeightLossProjection_tMax k) 0 random 0 n)),
      rest.
    split; [exact E|]. rewrite body_t, logistic_body.
    split; [reflexivity|].
    split; [apply value_at_0 | left; apply value_range].
  - apply (StronglySorted_transport (fun p q => t p < t q) _
             (fun p => y p = ideal Logistic k (WeightLossProjection_tMax k)
                                   (t p))).
    + intros a b Ea Eb Hab. split; [exact Hab|].
      rewrite Ea, Eb. apply value_antitone. lra.
    + exact Hpts.
    + apply curve_loop_times_sorted.
  - eapply Forall_impl; [|exact Hpts]. intros p Ey.
    split; [exact Ey|]. rewrite Ey. split; [apply value_le_exp|].
    apply value_late.
  - apply value_relative.
  - apply value_vanishes.
Qed.

(** ** The sort *)

Section JsSortFacts.

Context {A : Type}.
Variable compareFn : A -> A -> R.

Lemma js_insert_perm (x : A) (l : list A) :
  Permutation (js_insert compareFn x l) (x :: l).
Proof.
  induction l as [|x' l IH]; simpl; [reflexivity|].
  destruct (Rle_dec (compareFn x x') 0); [reflexivity|].
  rewrite IH. apply perm_swap.
Qed.

Lemma js_sort_perm (l : list A) : Permutation (js_sort compareFn l) l.
Proof.
  induction l as [|x l IH]; simpl; [reflexivity|].
  rewrite js_insert_perm. constructor. exact IH.
Qed.

(** A comparator that subtracts keys, as both comparators of the page do,
    orders the result by key, largest first. *)
Variable key : A -> R.
Hypothesis compareFn_key : forall a b, compareFn a b = key b - key a.

Lemma js_insert_sorted (x : A) (l : list A) :
  StronglySorted (fun a b => key b <= key a) l ->
  StronglySorted (fun a b => key b <= key a) (js_insert compareFn x l).
Proof.
  induction 1 as [|x' l HS IH Hx']; simpl.
  - repeat constructor.
  - destruct (Rle_dec (compareFn x x') 0) as [Hle|Hgt];
      rewrite compareFn_key in *.
    + constructor; [constructor; assumption|].
      constructor; [lra|].
      eapply Forall_impl; [|exact Hx']. simpl. intros b Hb. lra.
    + constructor; [exact IH|].
      rewrite (js_insert_perm x l). constructor; [lra | exact Hx'].
Qed.

Lemma js_sort_sorted (l : list A) :
  StronglySorted (fun a b => key b <= key a) (js_sort compareFn l).
Proof.
  induction l as [|x l IH]; simpl; [constructor|].
  apply js_insert_sorted. exact IH.
Qed.

End JsSortFacts.

Lemma js_sort_map {A B : Type} (f : A -> B)
    (cmpA : A -> A -> R) (cmpB : B -> B -> R) (l : list A) :
  (forall a b, cmpB (f a) (f b) = cmpA a b) ->
  js_sort cmpB (map f l) = map f (js_sort cmpA l).
Proof.
  intros Hc. induction l as [|x l IH]; simpl; [reflexivity|].
  rewrite IH. generalize (js_sort cmpA l) as s. intros s.
  induction s as [|x' s IHs]; simpl; [reflexivity|].
  rewrite Hc. destruct (Rle_dec (cmpA x x') 0); [reflexivity|].
  simpl. rewrite IHs. reflexivity.
Qed.

(** ** [DriversOfLiking] without noise *)

Lemma perturb_noiseless (random : nat -> R) (entries : list (string * R))
    (n : nat) :
  Forall (fun e => 0 <= snd e) entries ->
  perturb random 0 entries n =
    (map as_feature entries, (n + List.length entries)%nat).
Proof.
  intros Hpos. revert n.
  induction Hpos as [|[k v] entries Hv _ IH]; intros n; simpl.
  - f_equal. lia.
  - rewrite IH. simpl in Hv. unfold as_feature at 1. simpl.
    replace (v + (random n - 0.5) * 2 * 0) with v by lra.
    rewrite Rmax_right by exact Hv. f_equal. lia.
Qed.

Lemma base_weights_nonneg (tp : TimePoint) :
  Forall (fun e => 0 <= snd e) (base tp).
Proof.
  destruct tp; cbn [base label get String.eqb Ascii.eqb Bool.eqb
                    SAMPLE_FEATURES];
    repeat constructor; cbn [snd]; lra.
Qed.

Lemma base_length (tp : TimePoint) : List.length (base tp) = 8%nat.
Proof. destruct tp; reflexivity. Qed.

Lemma features_noiseless (random : nat -> R) (tp : TimePoint) (n : nat) :
  features random tp 0 n = (map as_feature (base tp), (n + 8)%nat).
Proof.
  unfold features. rewrite perturb_noiseless by apply base_weights_nonneg.
  rewrite base_length. reflexivity.
Qed.

Lemma ranking_noiseless (random : nat -> R) (tp : TimePoint) (n : nat) :
  map name (sorted (fst (features random tp 0 n))) =
  map fst (js_sort by_weight_desc (base tp)).
Proof.
  rewrite features_noiseless. cbn [fst]. unfold sorted.
  rewrite (js_sort_map as_feature by_weight_desc by_value_desc)
    by reflexivity.
  rewrite map_map. reflexivity.
Qed.

(** Decides every comparison of a sort over literal weights. *)
Ltac sort_literals :=
  repeat (cbn [js_sort fold_right js_insert];
          unfold by_weight_desc, by_value_desc;
          cbn [snd fst value];
          match goal with
          | |- context [Rle_dec ?a ?b] =>
              destruct (Rle_dec a b); [try (exfalso; lra) | try (exfalso; lra)]
          end);
  cbn [js_sort fold_right js_insert].

Lemma base_Day1_sorted :
  js_sort by_weight_desc (base Day1) =
  [ ("Freshness", 0.24); ("Sillage", 0.18); ("Texture", 0.17);
    ("Longevity", 0.12); ("Package", 0.10); ("Eco Score", 0.08);
    ("Price", 0.06); ("Brand", 0.05) ].
Proof.
  cbn [base label get String.eqb Ascii.eqb Bool.eqb SAMPLE_FEATURES].
  sort_literals. reflexivity.
Qed.

Lemma base_Day7_sorted :
  js_sort by_weight_desc (base Day7) =
  [ ("Sillage", 0.22); ("Freshness", 0.18); ("Texture", 0.18);
    ("Longevity", 0.16); ("Eco Score", 0.09); ("Package", 0.08);
    ("Price", 0.05); ("Brand", 0.04) ].
Proof.
  cbn [base label get String.eqb Ascii.eqb Bool.eqb SAMPLE_FEATURES].
  sort_literals. reflexivity.
Qed.

Lemma base_Day14_sorted :
  js_sort by_weight_desc (base Day14) =
  [ ("Sillage", 0.25); ("Longevity", 0.19); ("Texture", 0.17);
    ("Freshness", 0.15); ("Eco Score", 0.10); ("Package", 0.07);
    ("Price", 0.04); ("Brand", 0.03) ].
Proof.
  cbn [base label get String.eqb Ascii.eqb Bool.eqb SAMPLE_FEATURES].
  sort_literals. reflexivity.
Qed.

(** C4: without noise, for each of the three labels, the features in the
    order [DriversOfLiking] ranks them are the entries of the table for that
    label sorted by weight, largest first, ties in the order of the table:
    a rearrangement of the entries whose weights never increase, and, label
    by label, the order written out below. *)
Theorem drivers_ranking_noiseless
    (random : nat -> R) (tp : TimePoint) (n : nat) :
  let ranked := sorted (fst (features random tp 0 n)) in
  let table := js_sort by_weight_desc (base tp) in
  ranked = map as_feature table /\
  map name ranked = map fst table /\
  Permutation table (base tp) /\
  StronglySorted (fun a b => snd b <= snd a) table /\
  map name ranked =
    match tp with
    | Day1 => [ "Freshness"; "Sillage"; "Texture"; "Longevity"; "Package";
                "Eco Score"; "Price"; "Brand" ]
    | Day7 => [ "Sillage"; "Freshness"; "Texture"; "Longevity"; "Eco Score";
                "Package"; "Price"; "Brand" ]
    | Day14 => [ "Sillage"; "Longevity"; "Texture"; "Freshness"; "Eco Score";
                 "Package"; "Price"; "Brand" ]
    end.
Proof.
  intros ranked table. subst ranked table.
  assert (E : sorted (fst (features random tp 0 n)) =
              map as_feature (js_sort by_weight_desc (base tp))).
  { rewrite features_noiseless. cbn [fst]. unfold sorted.
    apply js_sort_map. reflexivity. }
  split; [exact E|]. split; [apply ranking_noiseless|].
  split; [apply js_sort_perm|].
  split; [apply (js_sort_sorted by_weight_desc snd); reflexivity|].
  rewrite ranking_noiseless. destruct tp.
  - rewrite base_Day1_sorted. reflexivity.
  - rewrite base_Day7_sorted. reflexivity.
  - rewrite base_Day14_sorted. reflexivity.
Qed.

(** ** The stability score *)

Lemma count_matches_same (l : list string) :
  count_matches l l = List.length l.
Proof.
  induction l as [|x l IH]; simpl; [reflexivity|].
  rewrite String.eqb_refl, IH. reflexivity.
Qed.

Lemma stability_Day1_noiseless (random : nat -> R) (n : nat) :
  stability (fst (features random Day1 0 n)) 0 = 1.
Proof.
  unfold stability. cbv zeta.
  change (js_sort by_value_desc (fst (features random Day1 0 n)))
    with (sorted (fst (features random Day1 0 n))).
  rewrite ranking_noiseless, count_matches_same.
  rewrite base_Day1_sorted. cbn [map List.length fst]. simpl INR.
  lra.
Qed.

(** C9: the stability shown is [max(0.5, min(1, raw))] of the raw score
    [(matches / length) * 0.3 + 0.7 - noise * 0.5], so it lies in [0.5, 1]
    for every label, every noise amplitude and every draw of the oracle;
    with noise 0 on "Day 1" the raw score and the score shown are 1. *)
Theorem stability_shown_range (random : nat -> R) :
  (forall fs noise,
     stability_shown fs noise = Rmax 0.5 (Rmin 1 (stability fs noise)) /\
     stability fs noise =
       INR (count_matches (map name (sorted fs))
              (map fst (js_sort by_weight_desc (base Day1))))
       / INR (List.length (map name (sorted fs))) * 0.3 + 0.7 - noise * 0.5) /\
  (forall tp noise n,
     0.5 <= stability_shown (fst (features random tp noise n)) noise <= 1) /\
  (forall n,
     stability (fst (features random Day1 0 n)) 0 = 1 /\
     stability_shown (fst (features random Day1 0 n)) 0 = 1).
Proof.
  split; [|split].
  - intros fs noise. split; reflexivity.
  - intros tp noise n. unfold stability_shown. split.
    + apply Rmax_l.
    + apply Rmax_lub; [lra | apply Rmin_l].
  - intros n. unfold stability_shown.
    rewrite stability_Day1_noiseless. split; [reflexivity|].
    rewrite Rmin_left, Rmax_right by lra. reflexivity.
Qed.

(** ** [AzureComparison] *)

(** C10: with the toggle off every row is rendered with its Fabric cell
    false, shown as a dash, whatever the [fabric] field of the row; with the
    toggle on the Fabric cell is the [fabric] field of the row; the name and
    the Classic cell are those of the row for either position of the
    toggle.  This holds for any table of rows, and [AzureComparison] renders
    the table of the component. *)
Theorem AzureComparison_cells (rs : list Capability) (on : bool) :
  AzureComparison on = render_rows on rows /\
  map row_name (render_rows on rs) = map cap_name rs /\
  map classic_cell (render_rows on rs) = map (fun r => cell (classic r)) rs /\
  map classic_cell (render_rows on rs)
    = map classic_cell (render_rows (negb on) rs) /\
  map fabric_cell (render_rows true rs) = map (fun r => cell (fabric r)) rs /\
  map fabric_cell (render_rows false rs) = map (fun _ => cell false) rs /\
  Forall (fun v => lit (fabric_cell v) = false /\ text (fabric_cell v) = "—")
    (render_rows false rs) /\
  Forall (fun v => lit (fabric_cell v) = false /\ text (fabric_cell v) = "—")
    (AzureComparison false) /\
  map (fun v => lit (fabric_cell v)) (AzureComparison true)
    = map fabric rows /\
  map (fun v => lit (classic_cell v)) (AzureComparison on)
    = map classic rows.
Proof.
  assert (Hoff : forall l,
             Forall (fun v => lit (fabric_cell v) = false /\
                              text (fabric_cell v) = "—")
               (render_rows false l)).
  { intros l. unfold render_rows. rewrite Forall_map.
    rewrite Forall_forall. intros r _. split; reflexivity. }
  unfold AzureComparison, render_rows. rewrite !map_map.
  repeat split; try reflexivity; apply Hoff.
Qed.

(** ** Locality of the controls *)

Section Frame.

Variable random : nat -> R.

Lemma setShowFabric_frame (v : bool) (p : Page) :
  let p' := setShowFabric v p in
  pauseAnim p' = pauseAnim p /\ weightLoss p' = weightLoss p /\
  drivers p' = drivers p /\ timeline p' = timeline p /\
  randomCalls p' = randomCalls p /\ showFabric (azure p') = v.
Proof. repeat split. Qed.

Lemma setModel_frame (m : Model) (p : Page) :
  let p' := setModel random m p in
  pauseAnim p' = pauseAnim p /\ drivers p' = drivers p /\
  azure p' = azure p /\ timeline p' = timeline p /\
  wl_model (weightLoss p') = m /\
  wl_k (weightLoss p') = wl_k (weightLoss p) /\
  wl_noise (weightLoss p') = wl_noise (weightLoss p) /\
  wl_pin (weightLoss p') = wl_pin (weightLoss p).
Proof.
  unfold setModel. cbv zeta.
  destruct (Model_eq_dec m (wl_model (weightLoss p))) as [E|_].
  - subst m. repeat split.
  - unfold set_weightLoss, rerender_weightLoss.
    destruct (WeightLossProjection_data _ _ _ _ _) as [data n'].
    repeat split.
Qed.

Lemma setTp_frame (d : TimePoint) (p : Page) :
  let p' := setTp random d p in
  pauseAnim p' = pauseAnim p /\ weightLoss p' = weightLoss p /\
  azure p' = azure p /\ timeline p' = timeline p /\
  dl_tp (drivers p') = d /\
  dl_noise (drivers p') = dl_noise (drivers p) /\
  dl_selected (drivers p') = dl_selected (drivers p).
Proof.
  unfold setTp. cbv zeta.
  destruct (TimePoint_eq_dec d (dl_tp (drivers p))) as [E|_].
  - subst d. repeat split.
  - unfold set_drivers, rerender_drivers.
    destruct (features _ _ _ _) as [fs n'].
    repeat split.
Qed.

Lemma handle_frame (e : Event) (f : Fragment) (p : Page) :
  f <> owner e -> agree_on f p (handle random e p).
Proof.
  intros Hf.
  destruct e; destruct f; try (exfalso; apply Hf; reflexivity);
    cbn [agree_on handle Chip Toggle];
    unfold setModel, setK, setCurveNoise, setPin, setTp, setDriversNoise,
      setSelected, setShowFabric, set_weightLoss, set_drivers; cbv zeta;
    repeat match goal with
      | |- context [if ?c then _ else _] => destruct c
      | |- context [match nth_error ?l ?i with _ => _ end] =>
          destruct (nth_error l i)
      end;
    reflexivity.
Qed.

Lemma agree_on_trans (f : Fragment) (p q r : Page) :
  agree_on f p q -> agree_on f q r -> agree_on f p r.
Proof. destruct f; simpl; intros H1 H2; rewrite H2; exact H1. Qed.

(** A session without events of a fragment leaves that fragment as it
    was. *)
Lemma run_frame (f : Fragment) (es : list Event) (p : Page) :
  Forall (fun e => f <> owner e) es -> agree_on f p (run random es p).
Proof.
  intros Hes. revert p. induction Hes as [|e es He _ IH]; intros p.
  - destruct f; reflexivity.
  - simpl. eapply agree_on_trans; [apply handle_frame; exact He | apply IH].
Qed.

End Frame.

(** C8: a click on the Show Fabric switch flips that flag and nothing else;
    a click on a model chip selects the model and leaves the rate, the noise
    and the pinned point of its own fragment, and every other fragment, as
    they were; a click on a day chip selects the label and leaves the noise
    and the selection of its own fragment, and every other fragment, as they
    were.  For any event, and for any session of events, the local state of
    a fragment that owns none of them is unchanged. *)
Theorem switches_and_chips_are_local (random : nat -> R) (p : Page) :
  (let p' := handle random ClickShowFabric p in
   showFabric (azure p') = negb (showFabric (azure p)) /\
   pauseAnim p' = pauseAnim p /\ weightLoss p' = weightLoss p /\
   drivers p' = drivers p /\ timeline p' = timeline p) /\
  (forall m,
     let p' := handle random (ClickModelChip m) p in
     wl_model (weightLoss p') = m /\
     wl_k (weightLoss p') = wl_k (weightLoss p) /\
     wl_noise (weightLoss p') = wl_noise (weightLoss p) /\
     wl_pin (weightLoss p') = wl_pin (weightLoss p) /\
     pauseAnim p' = pauseAnim p /\ drivers p' = drivers p /\
     azure p' = azure p /\ timeline p' = timeline p) /\
  (forall d,
     let p' := handle random (ClickDayChip d) p in
     dl_tp (drivers p') = d /\
     dl_noise (drivers p') = dl_noise (drivers p) /\
     dl_selected (drivers p') = dl_selected (drivers p) /\
     pauseAnim p' = pauseAnim p /\ weightLoss p' = weightLoss p /\
     azure p' = azure p /\ timeline p' = timeline p) /\
  (forall e f, f <> owner e -> agree_on f p (handle random e p)) /\
  (forall es f,
     Forall (fun e => f <> owner e) es -> agree_on f p (run random es p)).
Proof.
  split; [|split; [|split; [|split]]].
  - cbn [handle Toggle]. pose proof (setShowFabric_frame
                                       (negb (showFabric (azure p))) p) as H.
    cbv zeta in H. tauto.
  - intros m. cbn [handle Chip]. pose proof (setModel_frame random m p) as H.
    cbv zeta in *. tauto.
  - intros d. cbn [handle Chip]. pose proof (setTp_frame random d p) as H.
    cbv zeta in *. tauto.
  - intros e f. apply handle_frame.
  - intros es f. apply run_frame.
Qed.


(** ** The score in binary64 arithmetic *)

Section Binary64.

Import Stdlib.Floats.PrimFloat.

(** With all eight names matching and noise 0 the expression
    [(8 / 8) * 0.3 + 0.7 - 0 * 0.5], evaluated in binary64 as the page
    evaluates it, is 1 as well: the sum of the doubles nearest 0.3 and 0.7
    is halfway between 1 and its predecessor, and rounds to 1. *)
Lemma stability_Day1_binary64 :
  eqb (sub (add (mul (div 8%float 8%float) 0.3%float) 0.7%float)
           (mul 0%float 0.5%float))
      1%float = true.
Proof. reflexivity. Qed.

End Binary64.

(** * Further properties of the code *)

(** ** The sampling grid of [useCurve] *)

Section SamplingGrid.

Variable model : Model.
Variables k tMax noise : R.
Variable random : nat -> R.

Local Abbreviation loop := (curve_loop model k tMax noise random).
Local Abbreviation body' := (body model k tMax noise random).
Local Abbreviation h := (step tMax).
Local Abbreviation dpp := (draws_per_point noise).

Lemma body_draws (t0 : R) (n : nat) : snd (body' t0 n) = (n + dpp)%nat.
Proof.
  unfold body, eps, draws_per_point.
  destruct (Req_dec_T noise 0); simpl; lia.
Qed.

Lemma curve_loop_draws (t0 : R) (n : nat) :
  snd (loop t0 n) = (n + dpp * List.length (fst (loop t0 n)))%nat.
Proof.
  revert t0 n.
  apply (curve_loop_ind model k tMax noise random
           (fun _ n r => snd r = (n + dpp * List.length (fst r))%nat)).
  - intros t0 n _. simpl. lia.
  - intros t0 n _ IH. cbn [fst snd List.length].
    rewrite IH, body_draws. lia.
Qed.




End SamplingGrid.







Lemma clamp_cases (a : R) :
  (a <= 0 /\ Rmax 0 (Rmin 1 a) = 0) \/
  (0 <= a <= 1 /\ Rmax 0 (Rmin 1 a) = a) \/
  (1 <= a /\ Rmax 0 (Rmin 1 a) = 1).
Proof.
  destruct (Rle_dec a 0) as [H0|H0].
  - left. split; [exact H0|]. rewrite Rmin_right, Rmax_left by lra.
    reflexivity.
  - destruct (Rle_dec a 1) as [H1|H1].
    + right. left. split; [lra|]. rewrite Rmin_right, Rmax_right by lra.
      reflexivity.
    + right. right. split; [lra|]. rewrite Rmin_left, Rmax_right by lra.
      reflexivity.
Qed.

Lemma clamp_lipschitz (a b : R) :
  Rabs (Rmax 0 (Rmin 1 a) - Rmax 0 (Rmin 1 b)) <= Rabs (a - b).
Proof.
  destruct (clamp_cases a) as [[A ->]|[[A ->]|[A ->]]];
    destruct (clamp_cases b) as [[B ->]|[[B ->]|[B ->]]];
    unfold Rabs;
    repeat match goal with
           | |- context [Rcase_abs ?x] => destruct (Rcase_abs x)
           end; lra.
Qed.

Lemma noise_term_bound (r a i : R) :
  0 <= r < 1 -> 0 <= a -> Rabs ((r - 0.5) * 2 * a * i) <= a * Rabs i.
Proof.
  intros Hr Ha.
  replace ((r - 0.5) * 2 * a * i) with ((2 * r - 1) * (a * i)) by lra.
  rewrite Rabs_mult, (Rabs_mult a i), (Rabs_pos_eq a Ha).
  assert (H1 : Rabs (2 * r - 1) <= 1) by (apply Rabs_le; lra).
  pose proof (Rabs_pos i) as Hi. pose proof (Rabs_pos (2 * r - 1)).
  assert (0 <= a * Rabs i) by (apply Rmult_le_pos; lra).
  nra.
Qed.

(** X4: for a rate between 0 and 1e307 (no overflow in either model), a
    noise amplitude in [0, 0.1] and an oracle that returns numbers in
    [0, 1), every generated value departs from the clamped ideal value at
    its time by at most the amplitude times the ideal value, which itself
    lies in [0, 1]. *)
Theorem useCurve_noise_envelope
    (model : Model) (k tMax noise : R) (random : nat -> R) (n : nat) :
  (forall m, 0 <= random m < 1) -> 0 <= noise <= 0.1 -> 0 <= k <= 1e307 ->
  Forall
    (fun p =>
       0 <= ideal model k tMax (t p) <= 1 /\
       Rabs (y p - Rmax 0 (Rmin 1 (ideal model k tMax (t p))))
       <= noise * ideal model k tMax (t p))
    (fst (useCurve model k tMax noise random n)).
Proof.
  intros Hr Hn Hk. unfold useCurve. apply curve_loop_Forall.
  intros t1 m Ht1. rewrite body_t.
  assert (Hi : 0 <= ideal model k tMax t1 <= 1).
  { destruct model.
    - cbn [ideal]. pose proof (exp_pos (- k * t1)).
      assert (exp (- k * t1) <= 1) by (apply exp_le_1; nra). lra.
    - pose proof (logistic_ideal_range k tMax t1). lra. }
  split; [exact Hi|].
  apply Rle_trans with (noise * Rabs (ideal model k tMax t1));
    [|rewrite Rabs_pos_eq by lra; lra].
  unfold body, eps.
  destruct (Req_dec_T noise 0) as [E|E]; cbn [y fst].
  - rewrite Rplus_0_r, Rminus_diag, Rabs_R0.
    apply Rmult_le_pos; [lra | apply Rabs_pos].
  - eapply Rle_trans; [apply clamp_lipschitz|].
    match goal with |- Rabs (?i + ?e - ?i) <= _ =>
      replace (i + e - i) with e by lra end.
    apply noise_term_bound; [apply Hr | lra].
Qed.

Lemma useCurve_noise_envelope_witness :
  Forall
    (fun p =>
       0 <= ideal Logistic 0.03 93 (t p) <= 1 /\
       Rabs (y p - Rmax 0 (Rmin 1 (ideal Logistic 0.03 93 (t p))))
       <= 0.05 * ideal Logistic 0.03 93 (t p))
    (fst (useCurve Logistic 0.03 93 0.05 (fun _ => 0.25) 0)).
Proof.
  apply (useCurve_noise_envelope Logistic 0.03 93 0.05 (fun _ => 0.25) 0).
  - intros m. lra.
  - lra.
  - lra.
Defined.

(** ** Where the curves cross their landmarks *)

Lemma exp_le_inv (a b : R) : exp a <= exp b -> a <= b.
Proof.
  intros H. destruct (Rle_dec a b) as [Hab|Hab]; [exact Hab|].
  exfalso. assert (exp b < exp a) by (apply exp_increasing; lra). lra.
Qed.

(** X5: for a rate of at least 1e-6 (so that the floor of [t90] is not
    active) and no noise, a generated value of the exponential model is at
    most 0.1 exactly when its time has reached the displayed [t90]. *)
Theorem exp_curve_crosses_at_t90
    (k tMax : R) (random : nat -> R) (n : nat) :
  1e-6 <= k ->
  Forall (fun p => y p <= 0.1 <-> t90 k <= t p)
    (fst (useCurve Exp k tMax 0 random n)).
Proof.
  intros Hk. assert (Hpos : 0 < k) by lra.
  eapply Forall_impl; [|apply (exp_curve_points k tMax random Hpos n)].
  intros p [_ Ey]. rewrite Ey, <- exp_opp_ln_10.
  assert (E : k * t90 k = ln 10).
  { unfold t90. rewrite Rmax_right by lra. field. lra. }
  split.
  - intros H. apply exp_le_inv in H. nra.
  - intros H. apply exp_le_mono. nra.
Qed.

Lemma exp_curve_crosses_at_t90_witness :
  Forall (fun p => y p <= 0.1 <-> t90 0.03 <= t p)
    (fst (useCurve Exp 0.03 93 0 (fun _ => 0) 0)).
Proof.
  apply (exp_curve_crosses_at_t90 0.03 93 (fun _ => 0) 0). lra.
Defined.

(** X6: with a rate that is zero or negative and no noise, the exponential
    model is clamped to the constant 1: every point has value 1 and the
    band from 0.9 to 1. *)
Theorem exp_curve_flat_for_nonpositive_rate
    (k tMax : R) (random : nat -> R) (n : nat) :
  k <= 0 ->
  Forall (fun p => y p = 1 /\ yLo p = 0.9 /\ yHi p = 1)
    (fst (useCurve Exp k tMax 0 random n)).
Proof.
  intros Hk. unfold useCurve. apply curve_loop_Forall. intros t1 m Ht1.
  rewrite body_noiseless by reflexivity. cbv zeta. cbn [fst y yLo yHi ideal].
  assert (H1 : 1 <= exp (- k * t1)).
  { rewrite <- exp_0. apply exp_le_mono. nra. }
  rewrite (Rmin_left 1 (exp (- k * t1))), (Rmax_right 0 1) by lra.
  rewrite Rmax_right, Rmin_left by lra. repeat split; lra.
Qed.

Lemma exp_curve_flat_for_nonpositive_rate_witness :
  Forall (fun p => y p = 1 /\ yLo p = 0.9 /\ yHi p = 1)
    (fst (useCurve Exp (-1) 10 0 (fun _ => 0) 0)).
Proof.
  apply (exp_curve_flat_for_nonpositive_rate (-1) 10 (fun _ => 0) 0). lra.
Defined.

Lemma logistic_body_any (k tMax : R) (random : nat -> R) (t0 : R) (n : nat) :
  y (fst (body Logistic k tMax 0 random t0 n)) = ideal Logistic k tMax t0.
Proof.
  rewrite body_noiseless by reflexivity. cbv zeta. cbn [fst y].
  pose proof (logistic_ideal_range k tMax t0).
  rewrite Rmin_right, Rmax_right by lra. reflexivity.
Qed.

(** X7: for a rate of at most 1e307 (a finite steepness) and any horizon,
    the logistic value is 1/2 at [x0 = tMax / 4] and symmetric about that
    point, [value (x0 + d) + value (x0 - d) = 1]; on a generated curve
    without noise the values are at least 1/2 up to [x0] and at most 1/2
    from [x0] on. *)
Theorem logistic_midpoint
    (k tMax : R) (random : nat -> R) (n : nat) :
  k <= 1e307 ->
  ideal Logistic k tMax (logistic_x0 tMax) = 1 / 2 /\
  (forall d, ideal Logistic k tMax (logistic_x0 tMax + d)
             + ideal Logistic k tMax (logistic_x0 tMax - d) = 1) /\
  Forall (fun p => (t p <= logistic_x0 tMax -> 1 / 2 <= y p) /\
                   (logistic_x0 tMax <= t p -> y p <= 1 / 2))
    (fst (useCurve Logistic k tMax 0 random n)).
Proof.
  intros _. pose proof (logistic_s_floor k) as Hs.
  split; [|split].
  - unfold ideal. cbv zeta.
    replace (- logistic_s k * (logistic_x0 tMax - logistic_x0 tMax))
      with 0 by lra.
    rewrite exp_0. lra.
  - intros d. unfold ideal. cbv zeta.
    replace (- logistic_s k * (logistic_x0 tMax + d - logistic_x0 tMax))
      with (- (logistic_s k * d)) by lra.
    replace (- logistic_s k * (logistic_x0 tMax - d - logistic_x0 tMax))
      with (logistic_s k * d) by lra.
    rewrite exp_Ropp. pose proof (exp_pos (logistic_s k * d)) as Hp.
    field. split; lra.
  - unfold useCurve. apply curve_loop_Forall. intros t1 m _.
    rewrite body_t, logistic_body_any. unfold ideal. cbv zeta.
    set (u := - logistic_s k * (t1 - logistic_x0 tMax)).
    pose proof (exp_pos u) as Hp.
    assert (Hi : 0 < / (1 + exp u)) by (apply Rinv_0_lt_compat; lra).
    assert (E : / (1 + exp u) * (1 + exp u) = 1) by (apply Rinv_l; lra).
    unfold Rdiv. split.
    + intros H. assert (H1 : exp 0 <= exp u).
      { apply exp_le_mono. unfold u. nra. }
      rewrite exp_0 in H1. nra.
    + intros H. assert (H1 : exp u <= exp 0).
      { apply exp_le_mono. unfold u. nra. }
      rewrite exp_0 in H1. nra.
Qed.

Lemma logistic_midpoint_witness :
  ideal Logistic 0.03 92 (logistic_x0 92) = 1 / 2 /\
  (forall d, ideal Logistic 0.03 92 (logistic_x0 92 + d)
             + ideal Logistic 0.03 92 (logistic_x0 92 - d) = 1) /\
  Forall (fun p => (t p <= logistic_x0 92 -> 1 / 2 <= y p) /\
                   (logistic_x0 92 <= t p -> y p <= 1 / 2))
    (fst (useCurve Logistic 0.03 92 0 (fun _ => 0) 0)).
Proof.
  apply (logistic_midpoint 0.03 92 (fun _ => 0) 0). lra.
Defined.

(** X8: for every rate the derived horizon is a whole number of at least 1
    that covers [1.2 * t90] with less than 1 to spare; it does not depend
    on the rate below the floor 1e-6, and never grows when the rate grows;
    the data of the component therefore starts with a point at [t = 0]. *)
Theorem derived_horizon
    (k : R) (random : nat -> R) (model : Model) (noise : R) (n : nat) :
  (exists z, (1 <= z)%Z /\ WeightLossProjection_tMax k = IZR z) /\
  t90 k * 1.2 <= WeightLossProjection_tMax k < t90 k * 1.2 + 1 /\
  (k <= 1e-6 ->
   WeightLossProjection_tMax k = WeightLossProjection_tMax 1e-6) /\
  (forall k', k <= k' ->
              WeightLossProjection_tMax k' <= WeightLossProjection_tMax k) /\
  (exists p0 rest,
     fst (WeightLossProjection_data random model k noise n) = p0 :: rest /\
     t p0 = 0).
Proof.
  pose proof (t90_range k) as Ht. pose proof (tMax_ge k) as Hge.
  pose proof (Zceil_bound (t90 k * 1.2)) as Hc.
  split; [|split; [|split; [|split]]].
  - exists (Zceil (t90 k * 1.2)). split; [|reflexivity].
    assert (0 < Zceil (t90 k * 1.2))%Z; [|lia].
    apply lt_IZR. unfold WeightLossProjection_tMax in Hge. lra.
  - unfold WeightLossProjection_tMax. lra.
  - intros Hk. unfold WeightLossProjection_tMax, t90.
    rewrite (Rmax_left 1e-6 k), (Rmax_left 1e-6 1e-6) by lra. reflexivity.
  - intros k' Hk'. unfold WeightLossProjection_tMax. apply IZR_le.
    apply Zceil_le. unfold t90.
    pose proof (rate_floor_pos k) as M1. pose proof (rate_floor_pos k') as M2.
    pose proof ln_10_gt_1 as Hl.
    assert (Hm : Rmax 1e-6 k <= Rmax 1e-6 k').
    { apply Rmax_lub; [apply Rmax_l|].
      eapply Rle_trans; [exact Hk' | apply Rmax_r]. }
    assert (Hi : / Rmax 1e-6 k' <= / Rmax 1e-6 k)
      by (apply Rinv_le_contravar; lra).
    unfold Rdiv. nra.
  - unfold WeightLossProjection_data.
    destruct (useCurve_head model k (WeightLossProjection_tMax k) noise
                random n) as [rest E]; [lra|].
    eexists. exists rest. split; [exact E|]. apply body_t.
Qed.

(** ** [DriversOfLiking] with noise *)

Lemma perturb_shape (random : nat -> R) (noise : R)
    (entries : list (string * R)) (n : nat) :
  map name (fst (perturb random noise entries n)) = map fst entries /\
  Forall (fun f => 0 <= value f) (fst (perturb random noise entries n)) /\
  snd (perturb random noise entries n) = (n + List.length entries)%nat.
Proof.
  revert n. induction entries as [|[k v] entries IH]; intros n; simpl.
  - repeat split; [constructor | lia].
  - destruct (IH (S n)) as [E1 [E2 E3]].
    destruct (perturb random noise entries (S n)) as [fs n'].
    simpl in *. split; [f_equal; exact E1|]. split.
    + constructor; [apply Rmax_l | exact E2].
    + lia.
Qed.

Lemma base_names (tp : TimePoint) :
  map fst (base tp) =
  [ "Freshness"; "Sillage"; "Longevity"; "Price"; "Brand"; "Eco Score";
    "Package"; "Texture" ].
Proof. destruct tp; reflexivity. Qed.

Lemma features_length
    (random : nat -> R) (tp : TimePoint) (noise : R) (n : nat) :
  List.length (fst (features random tp noise n)) = 8%nat.
Proof.
  unfold features.
  destruct (perturb_shape random noise (base tp) n) as [E1 _].
  rewrite <- (length_map name), E1, length_map. apply base_length.
Qed.

Lemma features_draws
    (random : nat -> R) (tp : TimePoint) (noise : R) (n : nat) :
  snd (features random tp noise n) = (n + 8)%nat.
Proof.
  unfold features.
  destruct (perturb_shape random noise (base tp) n) as [_ [_ E3]].
  rewrite E3, base_length. reflexivity.
Qed.

(** X9: for every label, noise amplitude and sequence of draws, the
    features are eight, carry the names of the table in the order of the
    table (the same eight names for the three labels), have values that are
    never negative, and cost eight calls of the oracle, also when the noise
    amplitude is 0. *)
Theorem features_shape
    (random : nat -> R) (tp : TimePoint) (noise : R) (n : nat) :
  let fs := fst (features random tp noise n) in
  map name fs = map fst (base tp) /\
  map name fs =
    [ "Freshness"; "Sillage"; "Longevity"; "Price"; "Brand"; "Eco Score";
      "Package"; "Texture" ] /\
  List.length fs = 8%nat /\
  Forall (fun f => 0 <= value f) fs /\
  snd (features random tp noise n) = (n + 8)%nat.
Proof.
  intros fs. subst fs. unfold features.
  destruct (perturb_shape random noise (base tp) n) as [E1 [E2 E3]].
  split; [exact E1|]. split; [rewrite E1; apply base_names|].
  split; [|split; [exact E2|]].
  - rewrite <- (length_map name), E1, length_map. apply base_length.
  - rewrite E3, base_length. reflexivity.
Qed.

Lemma perturb_envelope (random : nat -> R) (noise : R)
    (entries : list (string * R)) (n : nat) :
  (forall m, 0 <= random m < 1) -> 0 <= noise ->
  Forall (fun e => 0 <= snd e) entries ->
  Forall2 (fun e f => name f = fst e /\ Rabs (value f - snd e) <= noise)
    entries (fst (perturb random noise entries n)).
Proof.
  intros Hr Hn Hpos. revert n.
  induction Hpos as [|[k v] entries Hv _ IH]; intros n; simpl.
  - constructor.
  - specialize (IH (S n)).
    destruct (perturb random noise entries (S n)) as [fs n'].
    simpl in *. constructor; [|exact IH]. split; [reflexivity|].
    simpl. pose proof (Hr n) as Hrn.
    set (d := (random n - 0.5) * 2 * noise).
    assert (Hd : - noise <= d <= noise) by (unfold d; nra).
    unfold Rmax. destruct (Rle_dec 0 (v + d)); apply Rabs_le; lra.
Qed.

(** X10: when the oracle returns numbers in [0, 1) and the noise amplitude
    is not negative, each feature keeps the name of its entry of the table
    and a value within the amplitude of the weight of that entry. *)
Theorem features_noise_envelope
    (random : nat -> R) (tp : TimePoint) (noise : R) (n : nat) :
  (forall m, 0 <= random m < 1) -> 0 <= noise ->
  Forall2 (fun e f => name f = fst e /\ Rabs (value f - snd e) <= noise)
    (base tp) (fst (features random tp noise n)).
Proof.
  intros Hr Hn. unfold features.
  apply perturb_envelope; [exact Hr | exact Hn | apply base_weights_nonneg].
Qed.

Lemma features_noise_envelope_witness :
  Forall2 (fun e f => name f = fst e /\ Rabs (value f - snd e) <= 0.08)
    (base Day7) (fst (features (fun _ => 0.25) Day7 0.08 0)).
Proof.
  apply (features_noise_envelope (fun _ => 0.25) Day7 0.08 0).
  - intros m. lra.
  - lra.
Defined.

(** X11: the bars are a rearrangement of the features with values that
    never increase from left to right; the top driver is the name of a
    feature of largest value, and there is none when there is no
    feature. *)
Theorem sorted_and_top_driver (fs : list Feature) :
  Permutation (sorted fs) fs /\
  StronglySorted (fun a b => value b <= value a) (sorted fs) /\
  top_driver [] = None /\
  (fs = [] \/
   exists f, top_driver fs = Some (name f) /\ In f fs /\
             forall g, In g fs -> value g <= value f).
Proof.
  assert (HP : Permutation (sorted fs) fs) by apply js_sort_perm.
  assert (HS : StronglySorted (fun a b => value b <= value a) (sorted fs)).
  { apply (js_sort_sorted by_value_desc value). reflexivity. }
  split; [exact HP|]. split; [exact HS|]. split; [reflexivity|].
  destruct fs as [|f0 fs']; [left; reflexivity|right].
  unfold top_driver. destruct (sorted (f0 :: fs')) as [|f s] eqn:E.
  - apply Permutation_nil in HP. discriminate.
  - exists f. split; [reflexivity|]. split.
    + apply (Permutation_in f HP). left. reflexivity.
    + intros g Hg. apply Permutation_sym in HP.
      apply (Permutation_in g HP) in Hg. destruct Hg as [->|Hg]; [lra|].
      inversion HS as [|? ? _ Hall]; subst.
      rewrite Forall_forall in Hall. apply Hall. exact Hg.
Qed.

Lemma count_matches_le (order ref : list string) :
  (count_matches order ref <= List.length order)%nat.
Proof.
  revert ref. induction order as [|o order IH]; intros ref; simpl; [lia|].
  specialize (IH (tl ref)).
  destruct ref as [|r ref']; [|destruct (String.eqb o r)]; simpl in *; lia.
Qed.

(** X13: for every label, noise amplitude and sequence of draws the raw
    stability lies between [0.7 - noise / 2] and [1 - noise / 2]; on the
    range of the slider, 0 to 0.08, it is therefore between 0.66 and 1, the
    clamp does nothing and the floor 0.5 is never shown. *)
Theorem stability_raw_range
    (random : nat -> R) (tp : TimePoint) (noise : R) (n : nat) :
  let fs := fst (features random tp noise n) in
  0.7 - noise * 0.5 <= stability fs noise <= 1 - noise * 0.5 /\
  (0 <= noise <= 0.08 ->
   0.66 <= stability fs noise <= 1 /\
   stability_shown fs noise = stability fs noise).
Proof.
  intros fs.
  assert (Hlen : List.length (map name (js_sort by_value_desc fs)) = 8%nat).
  { rewrite length_map.
    rewrite (Permutation_length (js_sort_perm by_value_desc fs)).
    apply features_length. }
  assert (R1 : 0.7 - noise * 0.5 <= stability fs noise <= 1 - noise * 0.5).
  { unfold stability. cbv zeta.
    pose proof (count_matches_le (map name (js_sort by_value_desc fs))
                  (map fst (js_sort by_weight_desc (base Day1)))) as Hc.
    rewrite Hlen in *.
    set (c := count_matches _ _) in *.
    assert (H0 : 0 <= INR c) by apply pos_INR.
    assert (H8 : INR c <= 8).
    { apply le_INR in Hc. simpl in Hc. lra. }
    replace (INR 8) with 8 by (simpl; lra).
    lra. }
  split; [exact R1|]. intros Hn.
  split; [lra|]. unfold stability_shown.
  rewrite Rmin_right, Rmax_right by lra. reflexivity.
Qed.

Lemma small_noise_term (random : nat -> R) (noise : R) :
  (forall m, 0 <= random m < 1) -> 0 <= noise <= 0.0049 ->
  forall m, - 0.0049 <= (random m - 0.5) * 2 * noise <= 0.0049.
Proof.
  intros Hr Hn m. pose proof (Hr m) as Hm. split; nra.
Qed.

(** Names the eight noise terms of a feature list and bounds them. *)
Ltac bound_noise_terms Hd n :=
  pose proof (Hd n); pose proof (Hd (S n)); pose proof (Hd (S (S n)));
  pose proof (Hd (S (S (S n)))); pose proof (Hd (S (S (S (S n)))));
  pose proof (Hd (S (S (S (S (S n))))));
  pose proof (Hd (S (S (S (S (S (S n)))))));
  pose proof (Hd (S (S (S (S (S (S (S n))))))));
  repeat match goal with
         | H : _ <= (?r - 0.5) * 2 * ?a <= _ |- _ =>
             let d := fresh "d" in
             set (d := (r - 0.5) * 2 * a) in *; clearbody d
         end.

(** X12: when the oracle returns numbers in [0, 1) and the noise amplitude
    is at most 0.0049, so that twice the amplitude stays clearly below the
    smallest gap of 0.01 between two weights, the ranking for "Day 1" and
    for "Day 14" is the ranking without noise, whatever the draws; for
    "Day 1" the raw stability is then [1 - noise / 2]. *)
Theorem ranking_robust_to_small_noise
    (random : nat -> R) (tp : TimePoint) (noise : R) (n : nat) :
  (forall m, 0 <= random m < 1) -> 0 <= noise <= 0.0049 -> tp <> Day7 ->
  let fs := fst (features random tp noise n) in
  map name (sorted fs) = map name (sorted (fst (features random tp 0 n))) /\
  (tp = Day1 -> stability fs noise = 1 - noise * 0.5).
Proof.
  intros Hr Hn Htp fs.
  pose proof (small_noise_term random noise Hr Hn) as Hd.
  assert (E : map name (sorted fs)
              = map name (sorted (fst (features random tp 0 n)))).
  { rewrite ranking_noiseless. subst fs.
    destruct tp; [|contradiction|].
    - rewrite base_Day1_sorted.
      unfold features.
      cbn [base label get String.eqb Ascii.eqb Bool.eqb SAMPLE_FEATURES
           perturb fst].
      bound_noise_terms Hd n.
      rewrite !Rmax_right by lra.
      unfold sorted. sort_literals. reflexivity.
    - rewrite base_Day14_sorted.
      unfold features.
      cbn [base label get String.eqb Ascii.eqb Bool.eqb SAMPLE_FEATURES
           perturb fst].
      bound_noise_terms Hd n.
      rewrite !Rmax_right by lra.
      unfold sorted. sort_literals. reflexivity. }
  split; [exact E|]. intros ->.
  unfold stability. cbv zeta.
  change (js_sort by_value_desc fs) with (sorted fs).
  rewrite E, ranking_noiseless, count_matches_same.
  rewrite base_Day1_sorted. cbn [map List.length fst]. simpl INR. lra.
Qed.

Lemma ranking_robust_to_small_noise_witness :
  let fs := fst (features (fun _ => 0.25) Day1 0.004 0) in
  map name (sorted fs)
    = map name (sorted (fst (features (fun _ => 0.25) Day1 0 0))) /\
  (Day1 = Day1 -> stability fs 0.004 = 1 - 0.004 * 0.5).
Proof.
  apply (ranking_robust_to_small_noise (fun _ => 0.25) Day1 0.004 0).
  - intros m. lra.
  - lra.
  - discriminate.
Defined.



(** ** Sessions on the page *)

Section Sessions.

Variable random : nat -> R.

Lemma rerender_weightLoss_data (k noise : R) (model : Model)
    (pin : option (R * R)) (n : nat) :
  let r := rerender_weightLoss random k noise model pin n in
  fst r = mkWeightLoss k noise model
            (fst (WeightLossProjection_data random model k noise n)) pin /\
  snd r = snd (WeightLossProjection_data random model k noise n).
Proof.
  unfold rerender_weightLoss.
  destruct (WeightLossProjection_data random model k noise n). split; reflexivity.
Qed.

Lemma rerender_drivers_features (tp : TimePoint) (noise : R)
    (selected : option string) (n : nat) :
  let r := rerender_drivers random tp noise selected n in
  fst r = mkDrivers tp noise selected (fst (features random tp noise n)) /\
  snd r = (n + 8)%nat.
Proof.
  unfold rerender_drivers.
  pose proof (features_draws random tp noise n) as H.
  destruct (features random tp noise n). simpl in *. split; [reflexivity|].
  exact H.
Qed.

Lemma mount_coherent (n : nat) : coherent random (mount random n).
Proof.
  unfold mount.
  pose proof (rerender_weightLoss_data 0.03 0.02 Exp None n) as [E1 _].
  destruct (rerender_weightLoss random 0.03 0.02 Exp None n) as [wl n1].
  pose proof (rerender_drivers_features Day1 0 None n1) as [E2 _].
  destruct (rerender_drivers random Day1 0 None n1) as [dl n2].
  simpl in *. subst wl dl. split; eexists; reflexivity.
Qed.

Lemma handle_coherent (e : Event) (p : Page) :
  coherent random p -> coherent random (handle random e p).
Proof.
  intros [[n1 H1] [n2 H2]].
  destruct e; cbn [handle Chip Toggle];
    unfold setModel, setK, setCurveNoise, setPin, setTp, setDriversNoise,
      setSelected, setShowFabric, set_weightLoss, set_drivers; cbv zeta;
    repeat match goal with
      | |- context [if ?c then _ else _] => destruct c
      | |- context [match nth_error ?l ?i with _ => _ end] =>
          destruct (nth_error l i)
      end;
    try (split; [exists n1; exact H1 | exists n2; exact H2]).
  all: split; cbn [weightLoss drivers];
    try (exists n1; exact H1); try (exists n2; exact H2).
  all: try match goal with
    | |- context [rerender_weightLoss random ?k ?a ?m ?pin ?n] =>
        destruct (rerender_weightLoss_data k a m pin n) as [E _];
        rewrite E; eexists; reflexivity
    | |- context [rerender_drivers random ?tp ?a ?s ?n] =>
        destruct (rerender_drivers_features tp a s n) as [E _];
        rewrite E; eexists; reflexivity
    end.
Qed.

Lemma run_coherent (es : list Event) (p : Page) :
  coherent random p -> coherent random (run random es p).
Proof.
  revert p. induction es as [|e es IH]; intros p Hp; [exact Hp|].
  simpl. apply IH. apply handle_coherent. exact Hp.
Qed.

End Sessions.



(** ** How the controls compose *)

(** X14: the Show Fabric switch and the background button are their own
    inverses: two clicks in a row leave the whole page as it was. *)
Theorem switches_undo_themselves (random : nat -> R) (p : Page) :
  run random [ClickShowFabric; ClickShowFabric] p = p /\
  run random [ClickBackground; ClickBackground] p = p /\
  AzureComparison
    (showFabric (azure (run random [ClickShowFabric; ClickShowFabric] p)))
  = AzureComparison (showFabric (azure p)).
Proof.
  destruct p as [pa wl dl [sf] tl rc].
  unfold run, handle, Toggle, setShowFabric.
  cbn [fold_left pauseAnim weightLoss drivers azure timeline randomCalls
       showFabric].
  rewrite !negb_involutive. repeat split; reflexivity.
Qed.

Lemma setModel_model (random : nat -> R) (m : Model) (p : Page) :
  wl_model (weightLoss (setModel random m p)) = m.
Proof. apply setModel_frame. Qed.

Lemma setTp_tp (random : nat -> R) (d : TimePoint) (p : Page) :
  dl_tp (drivers (setTp random d p)) = d.
Proof. apply setTp_frame. Qed.

Lemma setK_k (random : nat -> R) (v : R) (p : Page) :
  wl_k (weightLoss (setK random v p)) = v.
Proof.
  unfold setK. cbv zeta.
  destruct (Req_dec_T v (wl_k (weightLoss p))) as [E|_]; [auto|].
  unfold set_weightLoss. cbn [weightLoss].
  destruct (rerender_weightLoss_data random v (wl_noise (weightLoss p))
              (wl_model (weightLoss p)) (wl_pin (weightLoss p))
              (randomCalls p)) as [E _].
  rewrite E. reflexivity.
Qed.

Lemma setCurveNoise_noise (random : nat -> R) (v : R) (p : Page) :
  wl_noise (weightLoss (setCurveNoise random v p)) = v.
Proof.
  unfold setCurveNoise. cbv zeta.
  destruct (Req_dec_T v (wl_noise (weightLoss p))) as [E|_]; [auto|].
  unfold set_weightLoss. cbn [weightLoss].
  destruct (rerender_weightLoss_data random (wl_k (weightLoss p)) v
              (wl_model (weightLoss p)) (wl_pin (weightLoss p))
              (randomCalls p)) as [E _].
  rewrite E. reflexivity.
Qed.

Lemma setDriversNoise_noise (random : nat -> R) (v : R) (p : Page) :
  dl_noise (drivers (setDriversNoise random v p)) = v.
Proof.
  unfold setDriversNoise. cbv zeta.
  destruct (Req_dec_T v (dl_noise (drivers p))) as [E|_]; [auto|].
  unfold set_drivers. cbn [drivers].
  destruct (rerender_drivers_features random (dl_tp (drivers p)) v
              (dl_selected (drivers p)) (randomCalls p)) as [E _].
  rewrite E. reflexivity.
Qed.

(** X15: choosing again what is already chosen does nothing: a second click
    on the same model chip or day chip, and a second delivery of the same
    slider value, leave the page as the first left it, so a noisy curve or
    the features are not drawn anew. *)
Theorem repeated_choice_is_idle (random : nat -> R) (p : Page) :
  (forall m, run random [ClickModelChip m; ClickModelChip m] p
             = run random [ClickModelChip m] p) /\
  (forall d, run random [ClickDayChip d; ClickDayChip d] p
             = run random [ClickDayChip d] p) /\
  (forall v, run random [SlideRate v; SlideRate v] p
             = run random [SlideRate v] p) /\
  (forall v, run random [SlideCurveNoise v; SlideCurveNoise v] p
             = run random [SlideCurveNoise v] p) /\
  (forall v, run random [SlideDriversNoise v; SlideDriversNoise v] p
             = run random [SlideDriversNoise v] p).
Proof.
  cbn [run fold_left handle Chip].
  split; [|split; [|split; [|split]]].
  - intros m. pose proof (setModel_model random m p) as E.
    set (q := setModel random m p) in *. unfold setModel at 1. cbv zeta.
    destruct (Model_eq_dec m (wl_model (weightLoss q))); congruence.
  - intros d. pose proof (setTp_tp random d p) as E.
    set (q := setTp random d p) in *. unfold setTp at 1. cbv zeta.
    destruct (TimePoint_eq_dec d (dl_tp (drivers q))); congruence.
  - intros v. pose proof (setK_k random v p) as E.
    set (q := setK random v p) in *. unfold setK at 1. cbv zeta.
    destruct (Req_dec_T v (wl_k (weightLoss q))); congruence.
  - intros v. pose proof (setCurveNoise_noise random v p) as E.
    set (q := setCurveNoise random v p) in *.
    unfold setCurveNoise at 1. cbv zeta.
    destruct (Req_dec_T v (wl_noise (weightLoss q))); congruence.
  - intros v. pose proof (setDriversNoise_noise random v p) as E.
    set (q := setDriversNoise random v p) in *.
    unfold setDriversNoise at 1. cbv zeta.
    destruct (Req_dec_T v (dl_noise (drivers q))); congruence.
Qed.

Lemma data_draws (random : nat -> R) (model : Model) (k noise : R) (n : nat) :
  snd (WeightLossProjection_data random model k noise n)
  = (n + draws_per_point noise
         * List.length (fst (WeightLossProjection_data random model k noise n)))%nat.
Proof. unfold WeightLossProjection_data, useCurve. apply curve_loop_draws. Qed.

Lemma handle_randomCalls_le (random : nat -> R) (e : Event) (p : Page) :
  (randomCalls p <= randomCalls (handle random e p))%nat.
Proof.
  destruct e; cbn [handle Chip Toggle];
    unfold setModel, setK, setCurveNoise, setPin, setTp, setDriversNoise,
      setSelected, setShowFabric, set_weightLoss, set_drivers, Toggle;
    cbv zeta;
    repeat match goal with
      | |- context [if ?c then _ else _] => destruct c
      | |- context [match nth_error ?l ?i with _ => _ end] =>
          destruct (nth_error l i)
      end;
    cbn [randomCalls]; try lia.
  all: match goal with
    | |- context [rerender_weightLoss ?r ?k ?a ?m ?pin ?n] =>
        destruct (rerender_weightLoss_data r k a m pin n) as [_ E];
        rewrite E, data_draws; lia
    | |- context [rerender_drivers ?r ?tp ?a ?s ?n] =>
        destruct (rerender_drivers_features r tp a s n) as [_ E];
        rewrite E; lia
    end.
Qed.

(** X17: the count of calls of the oracle never decreases over a session;
    clicks on the chart, on a bar, on the dialog, on the Show Fabric switch,
    on a milestone and on the background button make no call; a day chip
    costs eight calls unless its label is the current one; a model chip
    costs none when the model is the current one or the noise amplitude is
    0, and otherwise one per point of the new curve. *)
Theorem oracle_accounting (random : nat -> R) (p : Page) :
  (forall es, (randomCalls p <= randomCalls (run random es p))%nat) /\
  (forall e,
     match e with
     | ClickModelChip _ | SlideRate _ | SlideCurveNoise _
     | ClickDayChip _ | SlideDriversNoise _ => True
     | _ => randomCalls (handle random e p) = randomCalls p
     end) /\
  (forall d,
     randomCalls (handle random (ClickDayChip d) p)
     = (randomCalls p
        + if TimePoint_eq_dec d (dl_tp (drivers p)) then 0 else 8)%nat) /\
  (forall m,
     let p' := handle random (ClickModelChip m) p in
     randomCalls p'
     = (randomCalls p
        + if Model_eq_dec m (wl_model (weightLoss p)) then 0
          else draws_per_point (wl_noise (weightLoss p))
               * List.length (wl_data (weightLoss p')))%nat).
Proof.
  split; [|split; [|split]].
  - intros es. revert p. induction es as [|e es IH]; intros p; simpl; [lia|].
    eapply Nat.le_trans; [apply (handle_randomCalls_le random e p) | apply IH].
  - intros e. destruct e; try exact I; cbn [handle Toggle];
      unfold setPin, setSelected, setShowFabric; cbv zeta;
      try reflexivity.
    destruct (nth_error _ _); reflexivity.
  - intros d. cbn [handle Chip]. unfold setTp. cbv zeta.
    destruct (TimePoint_eq_dec d (dl_tp (drivers p))) as [E|E]; [lia|].
    unfold set_drivers. cbn [randomCalls].
    destruct (rerender_drivers_features random d (dl_noise (drivers p))
                (dl_selected (drivers p)) (randomCalls p)) as [_ E2].
    rewrite E2. reflexivity.
  - intros m. cbn [handle Chip]. unfold setModel. cbv zeta.
    destruct (Model_eq_dec m (wl_model (weightLoss p))) as [E|E]; [lia|].
    unfold set_weightLoss. cbn [randomCalls weightLoss].
    destruct (rerender_weightLoss_data random (wl_k (weightLoss p))
                (wl_noise (weightLoss p)) m (wl_pin (weightLoss p))
                (randomCalls p)) as [E1 E2].
    rewrite E1, E2, data_draws. reflexivity.
Qed.

(** ** The dialog of [DriversOfLiking] *)

Section Dialog.

Variable random : nat -> R.

Lemma coherent_names (p : Page) :
  coherent random p -> map name (dl_features (drivers p)) = names8.
Proof.
  intros [_ [n H]]. rewrite H. unfold features.
  destruct (perturb_shape random (dl_noise (drivers p))
              (base (dl_tp (drivers p))) n) as [E _].
  rewrite E. apply base_names.
Qed.

Lemma bar_name (p : Page) (idx : nat) (f : Feature) :
  coherent random p ->
  nth_error (sorted (dl_features (drivers p))) idx = Some f ->
  In (name f) names8.
Proof.
  intros Hc Hn. rewrite <- (coherent_names p Hc).
  apply in_map. apply (Permutation_in f (js_sort_perm by_value_desc _)).
  apply (nth_error_In _ _ Hn).
Qed.

Lemma handle_selection_ok (e : Event) (p : Page) :
  coherent random p -> selection_ok p ->
  selection_ok (handle random e p).
Proof.
  intros Hc Hs. unfold selection_ok in *.
  destruct e; cbn [handle Chip Toggle];
    unfold setModel, setK, setCurveNoise, setPin, setTp, setDriversNoise,
      setSelected, setShowFabric, set_weightLoss, set_drivers; cbv zeta;
    try exact Hs; try exact I.
  - destruct (Model_eq_dec _ _); exact Hs.
  - destruct (Req_dec_T _ _); exact Hs.
  - destruct (Req_dec_T _ _); exact Hs.
  - destruct (TimePoint_eq_dec _ _); [exact Hs|]. cbn [drivers].
    destruct (rerender_drivers_features random d (dl_noise (drivers p))
                (dl_selected (drivers p)) (randomCalls p)) as [E _].
    rewrite E. exact Hs.
  - destruct (Req_dec_T _ _); [exact Hs|]. cbn [drivers].
    destruct (rerender_drivers_features random (dl_tp (drivers p)) v
                (dl_selected (drivers p)) (randomCalls p)) as [E _].
    rewrite E. exact Hs.
  - destruct (nth_error _ idx) as [f|] eqn:En; [|exact Hs].
    cbn [drivers dl_selected]. apply (bar_name p idx f Hc En).
Qed.

Lemma run_selection_ok (es : list Event) (p : Page) :
  coherent random p -> selection_ok p ->
  selection_ok (run random es p).
Proof.
  revert p. induction es as [|e es IH]; intros p Hc Hs; [exact Hs|].
  simpl. apply IH; [apply handle_coherent | apply handle_selection_ok];
    assumption.
Qed.

Lemma DriverModal_names8 (s : string) :
  In s names8 -> DriverModal (Some s) = Some s.
Proof.
  unfold names8. simpl.
  intros [<-|[<-|[<-|[<-|[<-|[<-|[<-|[<-|[]]]]]]]]]; reflexivity.
Qed.

End Dialog.

(** X18: after any session on the page as first shown, the selected driver
    is absent or one of the eight names of the table, and the dialog shows
    exactly the selection.  A click on any of the eight bars opens the
    dialog on the name of that bar; closing it hides it. *)
Theorem dialog_follows_selection
    (random : nat -> R) (n : nat) (es : list Event) :
  Forall deliverable es ->
  let p := run random es (mount random n) in
  selection_ok p /\
  DriverModal (dl_selected (drivers p)) = dl_selected (drivers p) /\
  (forall idx, (idx < 8)%nat ->
     exists f,
       nth_error (sorted (dl_features (drivers p))) idx = Some f /\
       In (name f) names8 /\
       DriverModal (dl_selected (drivers (handle random (ClickBar idx) p)))
       = Some (name f)) /\
  DriverModal (dl_selected (drivers (handle random CloseModal p))) = None.
Proof.
  intros _ p.
  assert (Hc : coherent random p) by (apply run_coherent, mount_coherent).
  assert (Hs : selection_ok p).
  { apply run_selection_ok; [apply mount_coherent|].
    unfold selection_ok, mount.
    destruct (rerender_weightLoss random 0.03 0.02 Exp None n) as [wl n1].
    pose proof (rerender_drivers_features random Day1 0 None n1) as [E _].
    destruct (rerender_drivers random Day1 0 None n1) as [dl n2].
    simpl in *. subst dl. exact I. }
  split; [exact Hs|]. split; [|split].
  - unfold selection_ok in Hs.
    destruct (dl_selected (drivers p)) as [s|]; [|reflexivity].
    apply DriverModal_names8. exact Hs.
  - intros idx Hidx.
    assert (Hlen : List.length (sorted (dl_features (drivers p))) = 8%nat).
    { unfold sorted. rewrite (Permutation_length (js_sort_perm _ _)).
      destruct Hc as [_ [n2 H2]]. rewrite H2. apply features_length. }
    destruct (nth_error (sorted (dl_features (drivers p))) idx) as [f|] eqn:En.
    + exists f. split; [reflexivity|].
      pose proof (bar_name random p idx f Hc En) as Hin.
      split; [exact Hin|]. cbn [handle]. rewrite En.
      cbn [setSelected drivers dl_selected].
      apply DriverModal_names8. exact Hin.
    + apply nth_error_None in En. lia.
  - reflexivity.
Qed.

Lemma dialog_follows_selection_witness :
  let p := run (fun _ => 0.25) [ClickDayChip Day14; ClickBar 2]
             (mount (fun _ => 0.25) 0) in
  selection_ok p /\
  DriverModal (dl_selected (drivers p)) = dl_selected (drivers p) /\
  (forall idx, (idx < 8)%nat ->
     exists f,
       nth_error (sorted (dl_features (drivers p))) idx = Some f /\
       In (name f) names8 /\
       DriverModal
         (dl_selected (drivers (handle (fun _ => 0.25) (ClickBar idx) p)))
       = Some (name f)) /\
  DriverModal
    (dl_selected (drivers (handle (fun _ => 0.25) CloseModal p))) = None.
Proof.
  apply (dialog_follows_selection (fun _ => 0.25) 0
           [ClickDayChip Day14; ClickBar 2]).
  repeat constructor.
Defined.

(** ** The timeline *)

Lemma cards_from_nth (ms : list Milestone) (o : option nat) :
  forall i j,
    nth_error (cards_from i ms o) j =
    option_map
      (fun m => mkCard (title m) (weeks m)
                  (if is_open o (i + j) then Some (desc m) else None))
      (nth_error ms j).
Proof.
  induction ms as [|m ms IH]; intros i j.
  - destruct j; reflexivity.
  - destruct j as [|j]; simpl.
    + rewrite Nat.add_0_r. reflexivity.
    + rewrite IH. replace (S i + j)%nat with (i + S j)%nat by lia.
      reflexivity.
Qed.

Lemma cards_from_closed (ms : list Milestone) (o : option nat) (i : nat) :
  (forall j, (i <= j)%nat -> is_open o j = false) ->
  filter expanded (cards_from i ms o) = [].
Proof.
  revert i. induction ms as [|m ms IH]; intros i H; simpl; [reflexivity|].
  rewrite (H i) by lia. simpl. apply IH. intros j Hj. apply H. lia.
Qed.

Lemma cards_from_expanded (ms : list Milestone) (o : option nat) (i : nat) :
  (List.length (filter expanded (cards_from i ms o)) <= 1)%nat.
Proof.
  revert i. induction ms as [|m ms IH]; intros i; simpl; [lia|].
  destruct (is_open o i) eqn:E; simpl; [|apply IH].
  rewrite cards_from_closed; [simpl; lia|].
  intros j Hj. destruct o as [x|]; [|reflexivity]. simpl in *.
  apply Nat.eqb_eq in E. apply Nat.eqb_neq. lia.
Qed.

(** X19: the timeline shows every milestone with its title and weeks, and
    the description of card [j] exactly when [j] is the open index, so at
    most one description at a time; a click on card [i] leaves card [j] open
    exactly when [j = i] and card [i] was closed: it opens a closed card,
    closing any other, and closes an open one. *)
Theorem timeline_accordion (o : option nat) (i : nat) :
  (forall j,
     nth_error (Timeline o) j =
     option_map
       (fun m => mkCard (title m) (weeks m)
                   (if is_open o j then Some (desc m) else None))
       (nth_error MILESTONES j)) /\
  (List.length (filter expanded (Timeline o)) <= 1)%nat /\
  (forall j, is_open (toggle_milestone o i) j
             = (Nat.eqb j i && negb (is_open o i))%bool) /\
  (forall random p,
     openIdx (timeline (handle random (ClickMilestone i) p))
     = toggle_milestone (openIdx (timeline p)) i).
Proof.
  split; [|split; [|split]].
  - intros j. unfold Timeline. rewrite cards_from_nth. reflexivity.
  - apply cards_from_expanded.
  - intros j. unfold toggle_milestone, is_open.
    destruct o as [x|]; simpl.
    + destruct (Nat.eqb x i) eqn:E; simpl.
      * rewrite andb_false_r. reflexivity.
      * rewrite andb_true_r. apply Nat.eqb_sym.
    + rewrite andb_true_r. apply Nat.eqb_sym.
  - reflexivity.
Qed.

(** ** The pinned point *)

(** X20: a click on the chart pins the clicked point and changes nothing
    else, neither the curve nor the count of calls of the oracle; no other
    event touches the pin, so a pin set before the rate, the noise or the
    model changes stays as it was when the curve is drawn anew. *)
Theorem pin_is_independent (random : nat -> R) (p : Page) :
  (forall t0 y0,
     let p' := handle random (ClickChart t0 y0) p in
     wl_pin (weightLoss p') = Some (t0, y0) /\
     wl_data (weightLoss p') = wl_data (weightLoss p) /\
     wl_k (weightLoss p') = wl_k (weightLoss p) /\
     wl_noise (weightLoss p') = wl_noise (weightLoss p) /\
     wl_model (weightLoss p') = wl_model (weightLoss p) /\
     randomCalls p' = randomCalls p) /\
  (forall e,
     match e with
     | ClickChart _ _ => True
     | _ => wl_pin (weightLoss (handle random e p)) = wl_pin (weightLoss p)
     end).
Proof.
  split.
  - intros t0 y0. cbn [handle]. unfold setPin. cbv zeta. repeat split.
  - intros e.
    destruct e; try exact I; cbn [handle Chip];
      unfold Toggle, setModel, setK, setCurveNoise, setTp, setDriversNoise,
        setSelected, setShowFabric, set_weightLoss, set_drivers; cbv zeta;
      repeat match goal with
        | |- context [if ?c then _ else _] => destruct c
        | |- context [match nth_error ?l ?i with _ => _ end] =>
            destruct (nth_error l i)
        end;
      cbn [weightLoss]; try reflexivity.
    all: match goal with
      | |- context [rerender_weightLoss ?r ?k ?a ?m ?pin ?n] =>
          destruct (rerender_weightLoss_data r k a m pin n) as [E _];
          rewrite E; reflexivity
      end.
Qed.
